(** * The caching layer of the isucogram web application

    A shallow embedding of the read-through / write-through cache that
    the application (package [main]) places between its request handlers
    and the relational store: the user cache ([getUsers], [appendUser],
    [banUserOnCache]), the index page cache ([getIndexPosts] and its
    invalidation), the per-post comment cache ([getComments],
    [appendComment]), the aggregation loop ([makePosts]) and the reset done
    by [dbInitialize].  Routing, sessions, templates and image files are
    left out.

    The program is modelled sequentially: every operation below runs
    while holding its domain mutex ([userMtx], [postMtx], [commentMtx]),
    so one call is one atomic transition of the world.  The two external
    services (MySQL through sqlx, memcached through gomemcache) and the
    JSON codec are the environment: their state is part of [World], their
    failures come from fault schedules carried by the world, and the codec
    is a type class. *)

From Stdlib Require Import Ascii.
From stdpp Require Import base option list gmap strings pretty sorting.

Open Scope Z_scope.

(** ** Data model *)

(** [time.Time] is an instant, here a number of clock ticks. *)
Definition Time := Z.

(** A [[]byte] value, as held by a memcached item or an image column. *)
Definition bytes := string.

Record User := mkUser {
  User_ID : Z;
  User_AccountName : string;
  User_Passhash : string;
  User_Authority : Z;
  User_DelFlg : Z;
  User_CreatedAt : Time
}.

Record Comment := mkComment {
  Comment_ID : Z;
  Comment_PostID : Z;
  Comment_UserID : Z;
  Comment_Comment : string;
  Comment_CreatedAt : Time;
  Comment_User : User
}.

Record Post := mkPost {
  Post_ID : Z;
  Post_UserID : Z;
  Post_Imgdata : bytes;
  Post_Body : string;
  Post_Mime : string;
  Post_CreatedAt : Time;
  Post_CommentCount : Z;
  Post_Comments : list Comment;
  Post_User : User;
  Post_CSRFToken : string
}.

(** [User{}], the zero value. *)
Definition zeroUser : User := mkUser 0 "" "" 0 0 0.

(** [u.DelFlg = flag]. *)
Definition with_DelFlg (flag : Z) (u : User) : User :=
  mkUser (User_ID u) (User_AccountName u) (User_Passhash u) (User_Authority u)
         flag (User_CreatedAt u).

Definition postsPerPage : Z := 20.

(** The Go [error] values that flow through the cache layer. *)
Inductive error :=
  | ErrCacheMiss        (* memcache: cache miss *)
  | ErrCacheTransport   (* memcache: connection failure or timeout *)
  | ErrStore            (* database/sql: the statement failed *)
  | ErrLastInsertId     (* sql.Result.LastInsertId failed *)
  | ErrJSON.            (* encoding/json: marshal or unmarshal failed *)

(** A Go result pair [(v, err)] of which exactly one side is meaningful. *)
Inductive result (A : Type) :=
  | Ok (a : A)
  | Err (e : error).
Arguments Ok {A} a.
Arguments Err {A} e.

(** Statements sent to the store, in the order they were issued. *)
Inductive Stmt :=
  | SelectUsersIn (ids : list Z)
  | SelectAllUsers
  | SelectPostIDs
  | SelectIndexPosts (limit : Z)
  | SelectComments (pid : Z)
  | InsertUser (accountName passhash : string)
  | InsertComment (pid uid : Z) (text : string)
  | DeleteUsersAbove (id : Z)
  | DeletePostsAbove (id : Z)
  | DeleteCommentsAbove (id : Z)
  | ClearDelFlg
  | SetDelFlgEvery (n : Z).

(** ** The world: store, cache backend and their fault schedules *)

Record World := mkWorld {
  users_tbl : list User;            (* table `users` *)
  posts_tbl : list Post;            (* table `posts` (columns only) *)
  comments_tbl : list Comment;      (* table `comments`, in insertion order *)
  users_auto_inc : Z;               (* AUTO_INCREMENT counter of `users` *)
  comments_auto_inc : Z;            (* AUTO_INCREMENT counter of `comments` *)
  db_log : list Stmt;               (* statements issued so far *)
  db_faults : list bool;            (* true: the next statement fails *)
  db_lastid_fails : bool;           (* the driver cannot report generated ids *)
  mc : gmap string bytes;           (* contents of memcached *)
  mc_faults : list bool             (* true: the next cache call fails *)
}.

Definition set_tables (us : list User) (ps : list Post) (cs : list Comment)
    (w : World) : World :=
  mkWorld us ps cs (users_auto_inc w) (comments_auto_inc w)
          (db_log w) (db_faults w) (db_lastid_fails w) (mc w) (mc_faults w).

Definition set_mc (m : gmap string bytes) (w : World) : World :=
  mkWorld (users_tbl w) (posts_tbl w) (comments_tbl w)
          (users_auto_inc w) (comments_auto_inc w)
          (db_log w) (db_faults w) (db_lastid_fails w) m (mc_faults w).

Definition set_mc_faults (fs : list bool) (w : World) : World :=
  mkWorld (users_tbl w) (posts_tbl w) (comments_tbl w)
          (users_auto_inc w) (comments_auto_inc w)
          (db_log w) (db_faults w) (db_lastid_fails w) (mc w) fs.

Definition set_db_faults (fs : list bool) (w : World) : World :=
  mkWorld (users_tbl w) (posts_tbl w) (comments_tbl w)
          (users_auto_inc w) (comments_auto_inc w)
          (db_log w) fs (db_lastid_fails w) (mc w) (mc_faults w).

Definition log_stmt (q : Stmt) (w : World) : World :=
  mkWorld (users_tbl w) (posts_tbl w) (comments_tbl w)
          (users_auto_inc w) (comments_auto_inc w)
          (db_log w ++ [q]) (db_faults w) (db_lastid_fails w) (mc w) (mc_faults w).

Definition insert_user_row (u : User) (w : World) : World :=
  mkWorld (users_tbl w ++ [u]) (posts_tbl w) (comments_tbl w)
          (users_auto_inc w + 1) (comments_auto_inc w)
          (db_log w) (db_faults w) (db_lastid_fails w) (mc w) (mc_faults w).

Definition insert_comment_row (c : Comment) (w : World) : World :=
  mkWorld (users_tbl w) (posts_tbl w) (comments_tbl w ++ [c])
          (users_auto_inc w) (comments_auto_inc w + 1)
          (db_log w) (db_faults w) (db_lastid_fails w) (mc w) (mc_faults w).

(** The head of a fault schedule decides the next call; an exhausted
    schedule means the service stays healthy. *)
Definition next_fault (fs : list bool) : bool * list bool :=
  match fs with
  | [] => (false, [])
  | b :: fs' => (b, fs')
  end.

(** ** A state monad with panics *)

Inductive Outcome (A : Type) :=
  | Returns (a : A)
  | Panics (msg : string).
Arguments Returns {A} a.
Arguments Panics {A} msg.

Definition M (A : Type) : Type := World → Outcome A * World.

Global Instance M_ret : MRet M := λ A a w, (Returns a, w).
Global Instance M_bind : MBind M := λ A B f m w,
  match m w with
  | (Returns a, w') => f a w'
  | (Panics msg, w') => (Panics msg, w')
  end.

Definition panic {A} (msg : string) : M A := λ w, (Panics msg, w).
Definition gets {A} (f : World → A) : M A := λ w, (Returns (f w), w).
Definition modify (f : World → World) : M unit := λ w, (Returns tt, f w).
Definition lift {A} (o : Outcome A) : M A := λ w, (o, w).

(** ** The cache backend (gomemcache client, protocol of memcached)

    The client library is outside the repository.  Its calls follow the
    backend protocol: [Get] finds a value or reports a miss, [GetMulti]
    returns the present keys only, [Set] stores without expiry, and a call
    that hits a transport failure returns an error and nothing else. *)

Definition mc_fault : M bool := λ w,
  let '(b, fs) := next_fault (mc_faults w) in (Returns b, set_mc_faults fs w).

(** [memcacheClient.Get(key)]. *)
Definition mc_Get (key : string) : M (result bytes) :=
  down ← mc_fault;
  if (down : bool) then mret (Err ErrCacheTransport)
  else
    m ← gets mc;
    match m !! key with
    | Some v => mret (Ok v)
    | None => mret (Err ErrCacheMiss)
    end.

(** The present keys among [keys], as [GetMulti] collects them. *)
Fixpoint multi_lookup (m : gmap string bytes) (keys : list string)
  : gmap string bytes :=
  match keys with
  | [] => ∅
  | k :: ks =>
      match m !! k with
      | Some v => <[k := v]> (multi_lookup m ks)
      | None => multi_lookup m ks
      end
  end.

(** [memcacheClient.GetMulti(keys)]: the items found, and an error with an
    empty mapping when the transport fails. *)
Definition mc_GetMulti (keys : list string)
  : M (gmap string bytes * option error) :=
  down ← mc_fault;
  if (down : bool) then mret (∅, Some ErrCacheTransport)
  else
    m ← gets mc;
    mret (multi_lookup m keys, None).

(** [memcacheClient.Set(&memcache.Item{Key: key, Value: v})], no expiry. *)
Definition mc_Set (key : string) (v : bytes) : M (option error) :=
  down ← mc_fault;
  if (down : bool) then mret (Some ErrCacheTransport)
  else
    _ ← modify (λ w, set_mc (<[key := v]> (mc w)) w);
    mret None.

(** [memcacheClient.Delete(key)]. *)
Definition mc_Delete (key : string) : M (option error) :=
  down ← mc_fault;
  if (down : bool) then mret (Some ErrCacheTransport)
  else
    m ← gets mc;
    match m !! key with
    | Some _ =>
        _ ← modify (λ w, set_mc (delete key (mc w)) w);
        mret None
    | None => mret (Some ErrCacheMiss)
    end.

(** ** The store (MySQL through sqlx)

    The tables are lists of rows in insertion order.  `ORDER BY` is a
    stable sort of the selected rows: rows with equal timestamps come out
    in insertion order. *)

(** Every statement is logged when it is sent; the fault schedule then
    decides whether it fails. *)
Definition db_send (q : Stmt) : M bool := λ w,
  let '(b, fs) := next_fault (db_faults w) in
  (Returns b, set_db_faults fs (log_stmt q w)).

(** The rows of `users` whose id is among [ids]. *)
Definition user_rows (tbl : list User) (ids : list Z) : list User :=
  filter (λ u, User_ID u ∈ ids) tbl.

(** [SELECT * FROM `users` WHERE `id` IN (ids)]. *)
Definition db_Select_users_in (ids : list Z) : M (list User * option error) :=
  failed ← db_send (SelectUsersIn ids);
  if (failed : bool) then mret ([], Some ErrStore)
  else
    tbl ← gets users_tbl;
    mret (user_rows tbl ids, None).

(** Insertion sort by a boolean order; an element goes in front of the
    first one it is [le] to, so equal keys keep their relative order. *)
Fixpoint insert_by {A} (le : A → A → bool) (x : A) (l : list A) : list A :=
  match l with
  | [] => [x]
  | y :: l' => if le x y then x :: y :: l' else y :: insert_by le x l'
  end.

Definition sort_by {A} (le : A → A → bool) (l : list A) : list A :=
  foldr (insert_by le) [] l.

(** The columns of a `posts` row that the index query selects; the derived
    fields of the struct and the unselected image keep their zero value. *)
Definition scanIndexPost (p : Post) : Post :=
  mkPost (Post_ID p) (Post_UserID p) "" (Post_Body p) (Post_Mime p)
         (Post_CreatedAt p) 0 [] zeroUser "".

(** The columns of a `comments` row; [User] is not a column. *)
Definition scanComment (c : Comment) : Comment :=
  mkComment (Comment_ID c) (Comment_PostID c) (Comment_UserID c)
            (Comment_Comment c) (Comment_CreatedAt c) zeroUser.

Definition newer_first (p q : Post) : bool := Post_CreatedAt q <=? Post_CreatedAt p.
Definition older_first (c d : Comment) : bool := Comment_CreatedAt c <=? Comment_CreatedAt d.

(** [`user_id` IN (SELECT `id` FROM `users` WHERE `del_flg` = 0)]. *)
Definition author_visible (users : list User) (p : Post) : Prop :=
  Post_UserID p ∈ User_ID <$> filter (λ u, User_DelFlg u = 0) users.

Global Instance author_visible_dec users p : Decision (author_visible users p).
Proof. unfold author_visible. apply _. Defined.

Definition index_rows (users : list User) (posts : list Post) (limit : Z)
  : list Post :=
  scanIndexPost <$>
    take (Z.to_nat limit) (sort_by newer_first (filter (author_visible users) posts)).

(** [SELECT `posts`.`id`, `user_id`, `body`, `mime`, `posts`.`created_at`
     FROM `posts` WHERE `user_id` IN (SELECT `id` FROM `users` WHERE
     `del_flg` = 0) ORDER BY `created_at` DESC LIMIT limit]. *)
Definition db_Select_index_posts (limit : Z) : M (list Post * option error) :=
  failed ← db_send (SelectIndexPosts limit);
  if (failed : bool) then mret ([], Some ErrStore)
  else
    us ← gets users_tbl;
    ps ← gets posts_tbl;
    mret (index_rows us ps limit, None).

Definition comment_rows (tbl : list Comment) (pid : Z) : list Comment :=
  scanComment <$> sort_by older_first (filter (λ c, Comment_PostID c = pid) tbl).

(** [SELECT * FROM `comments` WHERE `post_id` = pid ORDER BY `created_at`]. *)
Definition db_Select_comments (pid : Z) : M (list Comment * option error) :=
  failed ← db_send (SelectComments pid);
  if (failed : bool) then mret ([], Some ErrStore)
  else
    tbl ← gets comments_tbl;
    mret (comment_rows tbl pid, None).

(** An [sql.Result]: only [LastInsertId] is consulted. *)
Record sqlResult := mkSqlResult { LastInsertId : result Z }.

(** [INSERT INTO `comments` (`post_id`, `user_id`, `comment`) VALUES (?,?,?)].
    The row gets the next AUTO_INCREMENT id and the store's current
    timestamp [dbnow] as its `created_at` default. *)
Definition db_Exec_insert_comment (pid uid : Z) (text : string) (dbnow : Time)
  : M (result sqlResult) :=
  failed ← db_send (InsertComment pid uid text);
  if (failed : bool) then mret (Err ErrStore)
  else
    cid ← gets comments_auto_inc;
    _ ← modify (insert_comment_row (mkComment cid pid uid text dbnow zeroUser));
    nolast ← gets db_lastid_fails;
    mret (Ok (mkSqlResult (if (nolast : bool) then Err ErrLastInsertId else Ok cid))).

(** [INSERT INTO `users` (`account_name`, `passhash`) VALUES (?,?)].  The
    columns left out take their defaults: authority 0, deletion flag 0,
    the store's current timestamp. *)
Definition db_Exec_insert_user (accountName passhash : string) (dbnow : Time)
  : M (result sqlResult) :=
  failed ← db_send (InsertUser accountName passhash);
  if (failed : bool) then mret (Err ErrStore)
  else
    uid ← gets users_auto_inc;
    _ ← modify (insert_user_row (mkUser uid accountName passhash 0 0 dbnow));
    nolast ← gets db_lastid_fails;
    mret (Ok (mkSqlResult (if (nolast : bool) then Err ErrLastInsertId else Ok uid))).

(** [SELECT * FROM `users`]. *)
Definition db_Select_all_users : M (list User * option error) :=
  failed ← db_send SelectAllUsers;
  if (failed : bool) then mret ([], Some ErrStore)
  else
    tbl ← gets users_tbl;
    mret (tbl, None).

(** [SELECT id FROM `posts`]. *)
Definition db_Select_post_ids : M (list Z * option error) :=
  failed ← db_send SelectPostIDs;
  if (failed : bool) then mret ([], Some ErrStore)
  else
    tbl ← gets posts_tbl;
    mret (Post_ID <$> tbl, None).

(** [db.Exec] of a DELETE or UPDATE; a statement that fails changes
    nothing. *)
Definition db_Exec_update (q : Stmt) (effect : World → World) : M (option error) :=
  failed ← db_send q;
  if (failed : bool) then mret (Some ErrStore)
  else
    _ ← modify effect;
    mret None.

(** The five statements of [dbInitialize], in order. *)
Definition initialize_sqls : list (Stmt * (World → World)) :=
  [ (DeleteUsersAbove 1000,      (* DELETE FROM users WHERE id > 1000 *)
     λ w, set_tables (filter (λ u, ¬ 1000 < User_ID u) (users_tbl w))
                     (posts_tbl w) (comments_tbl w) w);
    (DeletePostsAbove 10000,     (* DELETE FROM posts WHERE id > 10000 *)
     λ w, set_tables (users_tbl w)
                     (filter (λ p, ¬ 10000 < Post_ID p) (posts_tbl w))
                     (comments_tbl w) w);
    (DeleteCommentsAbove 100000, (* DELETE FROM comments WHERE id > 100000 *)
     λ w, set_tables (users_tbl w) (posts_tbl w)
                     (filter (λ c, ¬ 100000 < Comment_ID c) (comments_tbl w)) w);
    (ClearDelFlg,                (* UPDATE users SET del_flg = 0 *)
     λ w, set_tables (with_DelFlg 0 <$> users_tbl w)
                     (posts_tbl w) (comments_tbl w) w);
    (SetDelFlgEvery 50,          (* UPDATE users SET del_flg = 1 WHERE id % 50 = 0 *)
     λ w, set_tables ((λ u, if decide (Z.rem (User_ID u) 50 = 0)
                            then with_DelFlg 1 u else u) <$> users_tbl w)
                     (posts_tbl w) (comments_tbl w) w) ].

(** ** The JSON codec ([encoding/json]) *)

Class JSON (A : Type) := {
  marshal : A → result bytes;
  unmarshal : bytes → result A
}.

(** What the cache layer relies on: a value that was marshalled decodes to
    itself, and marshalling succeeds. *)
Definition roundtrip A `{JSON A} : Prop :=
  ∀ (a : A) (s : bytes), marshal a = Ok s → unmarshal s = Ok a.

Definition marshal_total A `{JSON A} : Prop :=
  ∀ a : A, ∃ s : bytes, marshal a = Ok s.

(** ** Cache keys *)

(** [strconv.Itoa]. *)
Definition Itoa (n : Z) : string := pretty n.

Definition getUserCacheKey (uid : Z) : string := "user:" +:+ Itoa uid.
Definition getIndexPostsCacheKey : string := "indexPosts".
Definition getCommentsCacheKey (pid : Z) : string := "comments:" +:+ Itoa pid.

Section operations.
Context `{JSON User, JSON (list Post), JSON (list Comment)}.

(** *** UserCache *)

(** First loop of [getUsers]: split the requested ids into decoded hits
    and misses.  A cached payload that does not decode panics. *)
Fixpoint getUsers_hits (items : gmap string bytes) (uids : list Z)
    (users : gmap Z User) (missUids : list Z)
  : Outcome (gmap Z User * list Z) :=
  match uids with
  | [] => Returns (users, missUids)
  | uid :: rest =>
      match items !! getUserCacheKey uid with
      | Some v =>
          match unmarshal v with
          | Ok u => getUsers_hits items rest (<[uid := u]> users) missUids
          | Err _ => Panics "error user unmarshal"
          end
      | None => getUsers_hits items rest users (missUids ++ [uid])
      end
  end.

(** Second loop of [getUsers]: merge the rows found in the store and
    cache each of them; the result of [Set] is dropped. *)
Fixpoint getUsers_backfill (missUsers : list User) (users : gmap Z User)
  : M (gmap Z User) :=
  match missUsers with
  | [] => mret users
  | u :: rest =>
      let users := <[User_ID u := u]> users in
      match marshal u with
      | Err _ => panic "userMarshaled"
      | Ok userMarshaled =>
          _ ← mc_Set (getUserCacheKey (User_ID u)) userMarshaled;
          getUsers_backfill rest users
      end
  end.

(** [func getUsers(uids []int) (map[int]User, error)].  The error of
    [GetMulti] is only printed, the one of [db.Select] is assigned and
    never read; [sqlx.In] cannot fail on a non-empty id list. *)
Definition getUsers (uids : list Z) : M (result (gmap Z User)) :=
  let keys := getUserCacheKey <$> uids in
  '(items, _) ← mc_GetMulti keys;
  '(users, missUids) ← lift (getUsers_hits items uids ∅ []);
  if decide (0 < length missUids)%nat then
    '(missUsers, _) ← db_Select_users_in missUids;
    users ← getUsers_backfill missUsers users;
    mret (Ok users)
  else mret (Ok users).

(** [func banUserOnCache(userID int)]. *)
Definition banUserOnCache (userID : Z) : M unit :=
  let key := getUserCacheKey userID in
  item ← mc_Get key;
  match item with
  | Err _ => mret tt
  | Ok v =>
      match unmarshal v with
      | Err _ => panic "error user unmarshal"
      | Ok u =>
          let u := with_DelFlg 1 u in
          match marshal u with
          | Err _ => panic "error user marshal"
          | Ok userMarshaled =>
              _ ← mc_Set key userMarshaled;
              mret tt
          end
      end
  end.

(** [func appendUser(accountName string, passhash string) (int, error)];
    [now] is the reading of [time.Now()] kept in the cached copy, [dbnow]
    the timestamp the store gives the row. *)
Definition appendUser (accountName passhash : string) (now dbnow : Time)
  : M (Z * option error) :=
  let u := mkUser 0 accountName passhash 0 0 now in
  res ← db_Exec_insert_user (User_AccountName u) (User_Passhash u) dbnow;
  match res with
  | Err e => mret (-1, Some e)
  | Ok res =>
      match LastInsertId res with
      | Err e => mret (-1, Some e)
      | Ok uid =>
          let u := mkUser uid (User_AccountName u) (User_Passhash u)
                          (User_Authority u) (User_DelFlg u) (User_CreatedAt u) in
          match marshal u with
          | Err e => mret (-1, Some e)
          | Ok userMarshaled =>
              _ ← mc_Set (getUserCacheKey (User_ID u)) userMarshaled;
              mret (User_ID u, None)
          end
      end
  end.

(** The loop of [resetUserCache]: every row is cached again. *)
Fixpoint resetUserCache_loop (users : list User) : M unit :=
  match users with
  | [] => mret tt
  | u :: rest =>
      match marshal u with
      | Err _ => panic "userMarshaled"
      | Ok userMarshaled =>
          _ ← mc_Set (getUserCacheKey (User_ID u)) userMarshaled;
          resetUserCache_loop rest
      end
  end.

(** [func resetUserCache()]. *)
Definition resetUserCache : M unit :=
  '(users, err) ← db_Select_all_users;
  match err with
  | Some _ => panic "error with SELECT * FROM `users`"
  | None => resetUserCache_loop users
  end.

(** *** PostIndexCache *)

(** [func getIndexPosts() ([]Post, error)]. *)
Definition getIndexPosts : M (result (list Post)) :=
  let key := getIndexPostsCacheKey in
  item ← mc_Get key;
  match item with
  | Ok v =>
      match unmarshal v with
      | Err _ => panic "error indexPosts unmarshal"
      | Ok posts => mret (Ok posts)
      end
  | Err _ =>
      '(posts, err) ← db_Select_index_posts postsPerPage;
      match err with
      | Some e => mret (Err e)
      | None =>
          match marshal posts with
          | Ok postsMarshaled =>
              _ ← mc_Set key postsMarshaled;
              mret (Ok posts)
          | Err _ => mret (Ok posts)
          end
      end
  end.

(** [memcacheClient.Delete(getIndexPostsCacheKey())], the invalidation
    done by [postIndex] and [postAdminBanned]. *)
Definition invalidateIndexPosts : M (option error) :=
  mc_Delete getIndexPostsCacheKey.

(** *** CommentCache *)

(** [func getComments(pid int) ([]Comment, error)]. *)
Definition getComments (pid : Z) : M (result (list Comment)) :=
  let key := getCommentsCacheKey pid in
  item ← mc_Get key;
  match item with
  | Ok v =>
      match unmarshal v with
      | Err _ => panic "error comments unmarshal"
      | Ok comments => mret (Ok comments)
      end
  | Err _ =>
      '(comments, err) ← db_Select_comments pid;
      match err with
      | Some e => mret (Err e)
      | None =>
          match marshal comments with
          | Ok commentsMarshaled =>
              _ ← mc_Set key commentsMarshaled;
              mret (Ok comments)
          | Err _ => mret (Ok comments)
          end
      end
  end.

(** [func appendComment(postID int, user *User, comment string) error].
    [now] is the reading of [time.Now()] taken for the cached copy and
    [dbnow] the timestamp the store gives the inserted row.  The clock is
    read before [commentMtx] is taken, so the readings of calls that
    follow one another under the lock need not be in order. *)
Definition appendComment (postID : Z) (user : User) (comment : string)
    (now dbnow : Time) : M (option error) :=
  let c := mkComment 0 postID (User_ID user) comment now user in
  let key := getCommentsCacheKey postID in
  res ← db_Exec_insert_comment (Comment_PostID c) (Comment_UserID c)
                               (Comment_Comment c) dbnow;
  match res with
  | Err e => mret (Some e)
  | Ok res =>
      item ← mc_Get key;
      match item with
      | Err _ => mret None
      | Ok v =>
          match unmarshal v with
          | Err e => mret (Some e)
          | Ok comments =>
              match LastInsertId res with
              | Err e => mret (Some e)
              | Ok cid =>
                  let c := mkComment cid (Comment_PostID c) (Comment_UserID c)
                             (Comment_Comment c) (Comment_CreatedAt c)
                             (Comment_User c) in
                  let comments := comments ++ [c] in
                  match marshal comments with
                  | Err e => mret (Some e)
                  | Ok commentsMarshaled =>
                      _ ← mc_Set key commentsMarshaled;
                      mret None
                  end
              end
          end
      end
  end.

(** The loop of [resetCommentCache]; what [getComments] returns is
    dropped. *)
Fixpoint resetCommentCache_loop (postIDs : list Z) : M unit :=
  match postIDs with
  | [] => mret tt
  | postID :: rest =>
      _ ← getComments postID;
      resetCommentCache_loop rest
  end.

(** [func resetCommentCache()]. *)
Definition resetCommentCache : M unit :=
  '(postIDs, err) ← db_Select_post_ids;
  match err with
  | Some _ => panic "error with SELECT id FROM `posts`"
  | None => resetCommentCache_loop postIDs
  end.

(** [func resetCaches()]. *)
Definition resetCaches : M unit :=
  _ ← resetUserCache;
  resetCommentCache.

(** The loop of [dbInitialize] over its statements; the result of
    [db.Exec] is dropped. *)
Fixpoint dbInitialize_loop (sqls : list (Stmt * (World → World))) : M unit :=
  match sqls with
  | [] => mret tt
  | (q, effect) :: rest =>
      _ ← db_Exec_update q effect;
      dbInitialize_loop rest
  end.

(** [func dbInitialize()], the image files it removes from the disk
    aside. *)
Definition dbInitialize : M unit :=
  _ ← dbInitialize_loop initialize_sqls;
  resetCaches.

(** *** Aggregation *)

(** [comments[i].User, _ = users[comments[i].UserID]]: a missing key
    yields the zero [User]. *)
Definition attachUser (users : gmap Z User) (c : Comment) : Comment :=
  mkComment (Comment_ID c) (Comment_PostID c) (Comment_UserID c)
            (Comment_Comment c) (Comment_CreatedAt c)
            (default zeroUser (users !! Comment_UserID c)).

(** The comments kept for a post: [comments[:3]] unless all are asked
    for or there are at most three. *)
Definition shownComments (allComments : bool) (comments : list Comment)
  : list Comment :=
  if negb allComments && (3 <? Z.of_nat (length comments))
  then take 3 comments else comments.

(** The loop of [makePosts]; [posts] is the slice accumulated so far. *)
Fixpoint makePosts_loop (results : list Post) (CSRFToken : string)
    (allComments : bool) (posts : list Post) : M (result (list Post)) :=
  match results with
  | [] => mret (Ok posts)
  | p :: rest =>
      rc ← getComments (Post_ID p);
      match rc with
      | Err e => mret (Err e)
      | Ok comments =>
          let count := Z.of_nat (length comments) in
          let comments := shownComments allComments comments in
          let uids := Post_UserID p :: (Comment_UserID <$> comments) in
          ru ← getUsers uids;
          match ru with
          | Err e => mret (Err e)
          | Ok users =>
              let comments := attachUser users <$> comments in
              let p := mkPost (Post_ID p) (Post_UserID p) (Post_Imgdata p)
                         (Post_Body p) (Post_Mime p) (Post_CreatedAt p)
                         count comments
                         (default zeroUser (users !! Post_UserID p))
                         CSRFToken in
              let posts :=
                if decide (User_DelFlg (Post_User p) = 0)
                then posts ++ [p] else posts in
              if decide (postsPerPage ≤ Z.of_nat (length posts))
              then mret (Ok posts)
              else makePosts_loop rest CSRFToken allComments posts
          end
      end
  end.

(** [func makePosts(results []Post, CSRFToken string, allComments bool)
    ([]Post, error)]. *)
Definition makePosts (results : list Post) (CSRFToken : string)
    (allComments : bool) : M (result (list Post)) :=
  makePosts_loop results CSRFToken allComments [].

End operations.

(** ** A reference codec

    An executable instance of [JSON] for which [roundtrip] and
    [marshal_total] hold: a value is written as the binary digits of its
    [Countable] code.  It stands in for [encoding/json] wherever a concrete
    world is evaluated. *)

Global Instance User_eq_dec : EqDecision User.
Proof. solve_decision. Defined.

Global Instance Comment_eq_dec : EqDecision Comment.
Proof. solve_decision. Defined.

Global Instance Post_eq_dec : EqDecision Post.
Proof. solve_decision. Defined.

Global Instance User_countable : Countable User.
Proof.
  refine (inj_countable'
    (λ u, (User_ID u, User_AccountName u, User_Passhash u,
           User_Authority u, User_DelFlg u, User_CreatedAt u))
    (λ '(a, b, c, d, e, f), mkUser a b c d e f) _).
  by intros [].
Defined.

Global Instance Comment_countable : Countable Comment.
Proof.
  refine (inj_countable'
    (λ c, (Comment_ID c, Comment_PostID c, Comment_UserID c,
           Comment_Comment c, Comment_CreatedAt c, Comment_User c))
    (λ '(a, b, c, d, e, f), mkComment a b c d e f) _).
  by intros [].
Defined.

Global Instance Post_countable : Countable Post.
Proof.
  refine (inj_countable'
    (λ p, (Post_ID p, Post_UserID p, Post_Imgdata p, Post_Body p, Post_Mime p,
           Post_CreatedAt p, Post_CommentCount p, Post_Comments p, Post_User p,
           Post_CSRFToken p))
    (λ '(a, b, c, d, e, f, g, h, i, j), mkPost a b c d e f g h i j) _).
  by intros [].
Defined.

Module RefCodec.

Fixpoint digits (p : positive) : string :=
  match p with
  | xH => ""
  | xO q => String "0"%char (digits q)
  | xI q => String "1"%char (digits q)
  end.

Fixpoint undigits (s : string) : option positive :=
  match s with
  | "" => Some xH
  | String c s' =>
      if decide (c = "0"%char) then xO <$> undigits s'
      else if decide (c = "1"%char) then xI <$> undigits s'
      else None
  end.

Definition encode_value {A} `{Countable A} (a : A) : result bytes :=
  Ok (digits (encode a)).

Definition decode_value {A} `{Countable A} (s : bytes) : result A :=
  match undigits s ≫= decode with
  | Some a => Ok a
  | None => Err ErrJSON
  end.

Definition json {A} `{Countable A} : JSON A :=
  {| marshal := encode_value; unmarshal := decode_value |}.

Definition user : JSON User := json.
Definition posts : JSON (list Post) := json.
Definition comments : JSON (list Comment) := json.

End RefCodec.

(** ** Example worlds *)

Module Example.

Definition alice : User := mkUser 1 "alice" "7c4a8d09" 0 0 100.
Definition bob : User := mkUser 2 "bob" "1f3870be" 0 0 101.
Definition carol : User := mkUser 3 "carol" "b6d767d2" 1 0 102.
(** The row of a user who registers at time 500, and the copy of him that
    [appendUser] caches. *)
Definition dave : User := mkUser 1001 "dave" "e2fc714c" 0 0 500.

Definition post7 : Post :=
  mkPost 7 1 "" "sunset" "image/png" 200 0 [] zeroUser "".
Definition post8 : Post :=
  mkPost 8 2 "" "lunch" "image/jpeg" 210 0 [] zeroUser "".

(** Four comments on post 7, oldest first. *)
Definition c1 : Comment := mkComment 1 7 2 "first" 301 zeroUser.
Definition c2 : Comment := mkComment 2 7 3 "second" 302 zeroUser.
Definition c3 : Comment := mkComment 3 7 2 "third" 303 zeroUser.
Definition c4 : Comment := mkComment 4 7 1 "fourth" 304 zeroUser.

Definition encode_user (u : User) : bytes := RefCodec.digits (encode u).
Definition encode_comments (cs : list Comment) : bytes :=
  RefCodec.digits (encode cs).
Definition encode_posts (ps : list Post) : bytes :=
  RefCodec.digits (encode ps).

(** The store alone, with its counters where the initial data set leaves
    them; nothing is cached yet. *)
Definition cold : World :=
  mkWorld [alice; bob; carol] [post7; post8] [c1; c2; c3; c4] 1001 100001
          [] [] false ∅ [].

(** The statements of one `/initialize` that finds every comment list
    cached. *)
Definition initialize_log : list Stmt :=
  [DeleteUsersAbove 1000; DeletePostsAbove 10000; DeleteCommentsAbove 100000;
   ClearDelFlg; SetDelFlgEvery 50; SelectAllUsers; SelectPostIDs].

(** Every row of the store is cached: the cold world after `/initialize`. *)
Definition warm : World :=
  mkWorld [alice; bob; carol] [post7; post8] [c1; c2; c3; c4] 1001 100001
          (initialize_log ++ [SelectComments 7; SelectComments 8])
          [] false
          (<[getCommentsCacheKey 8 := encode_comments []]>
           (<[getCommentsCacheKey 7 := encode_comments [c1; c2; c3; c4]]>
            (<[getUserCacheKey 3 := encode_user carol]>
             (<[getUserCacheKey 2 := encode_user bob]>
              (<[getUserCacheKey 1 := encode_user alice]> ∅))))) [].

(** The warm world after one visit of the index page: the page is
    cached, newest post first. *)
Definition paged : World :=
  mkWorld [alice; bob; carol] [post7; post8] [c1; c2; c3; c4] 1001 100001
          (db_log warm ++ [SelectIndexPosts postsPerPage])
          [] false
          (<[getIndexPostsCacheKey :=
               encode_posts [scanIndexPost post8; scanIndexPost post7]]>
             (mc warm)) [].

(** The cache still holds the snapshot of a user the store has lost: dave
    registered and a second `/initialize` then removed his row, but not
    his cache entry. *)
Definition stale : World :=
  mkWorld [alice; bob; carol] [post7; post8] [c1; c2; c3; c4] 1002 100001
          (db_log warm ++ [InsertUser "dave" "e2fc714c"] ++ initialize_log)
          [] false
          (<[getUserCacheKey 1001 := encode_user dave]> (mc warm)) [].

(** The cached comment list of post 7 is not a valid payload. *)
Definition corrupt : World :=
  set_mc (<[getCommentsCacheKey 7 := "{[truncated"]> ∅) cold.

(** The store fails on the next statement. *)
Definition store_down : World := set_db_faults [true] cold.

(** The cache backend fails on the next call. *)
Definition cache_down : World := set_mc_faults [true] cold.

End Example.

(** ** Health of the environment *)

(** Whether the next call on a schedule fails. *)
Definition next_fails (fs : list bool) : bool := (next_fault fs).1.

(** No fault is scheduled, now or later, and generated ids are reported. *)
Definition healthy (w : World) : Prop :=
  db_faults w = [] ∧ mc_faults w = [] ∧ db_lastid_fails w = false.

(** The store as a whole: tables, counter and statement log. *)
Definition same_store (w w' : World) : Prop :=
  users_tbl w' = users_tbl w ∧ posts_tbl w' = posts_tbl w ∧
  comments_tbl w' = comments_tbl w ∧
  comments_auto_inc w' = comments_auto_inc w ∧
  db_log w' = db_log w ∧ db_faults w' = db_faults w ∧
  users_auto_inc w' = users_auto_inc w.

(** [u] with the deletion flag set, as [banUserOnCache] rewrites it. *)
Definition banned (u : User) : User := with_DelFlg 1 u.

(** The row that [appendComment] makes the store insert. *)
Definition inserted_row (w : World) (postID : Z) (user : User)
    (comment : string) (dbnow : Time) : Comment :=
  mkComment (comments_auto_inc w) postID (User_ID user) comment dbnow zeroUser.

(** The user snapshot the cache holds for an id, when it decodes. *)
Definition cached_user `{JSON User} (m : gmap string bytes) (uid : Z)
  : option User :=
  match m !! getUserCacheKey uid with
  | Some v => match unmarshal v with Ok u => Some u | Err _ => None end
  | None => None
  end.

(** Every payload cached for one of [uids] decodes. *)
Definition decodable `{JSON User} (m : gmap string bytes) (uids : list Z) : Prop :=
  ∀ uid v, uid ∈ uids → m !! getUserCacheKey uid = Some v →
           ∃ u : User, unmarshal v = Ok u.

(** The requested ids without a cache entry, in request order. *)
Definition missed (m : gmap string bytes) (uids : list Z) : list Z :=
  filter (λ uid, m !! getUserCacheKey uid = None) uids.

(** The map and the cache after the rows of a miss query were merged. *)
Definition merge_rows (rows : list User) (users : gmap Z User) : gmap Z User :=
  foldl (λ m u, <[User_ID u := u]> m) users rows.

Definition cache_rows `{JSON User} (rows : list User) (m : gmap string bytes)
  : gmap string bytes :=
  foldl (λ m u, match marshal u with
                | Ok s => <[getUserCacheKey (User_ID u) := s]> m
                | Err _ => m
                end) m rows.

(** The statement log after a miss query for [ids], skipped when empty. *)
Definition log_miss_query (lg : list Stmt) (ids : list Z) : list Stmt :=
  match ids with
  | [] => lg
  | _ :: _ => lg ++ [SelectUsersIn ids]
  end.

Definition not_newer (c d : Comment) : Prop :=
  Comment_CreatedAt c ≤ Comment_CreatedAt d.

(** The comment list the cache holds for a post, when it decodes. *)
Definition cached_comments `{JSON (list Comment)} (m : gmap string bytes)
    (pid : Z) : option (list Comment) :=
  match m !! getCommentsCacheKey pid with
  | Some v => match unmarshal v with Ok cs => Some cs | Err _ => None end
  | None => None
  end.

(** The comments of a post as a reader sees them: the cached list when
    there is one, the rows of the store otherwise. *)
Definition comments_view `{JSON (list Comment)} (w : World) (pid : Z)
  : list Comment :=
  match cached_comments (mc w) pid with
  | Some cs => cs
  | None => comment_rows (comments_tbl w) pid
  end.


(** Every cached comment list decodes. *)
Definition comment_cache_wf `{JSON (list Comment)} (m : gmap string bytes)
  : Prop :=
  ∀ pid v, m !! getCommentsCacheKey pid = Some v →
           ∃ cs : list Comment, unmarshal v = Ok cs.

(** The copy of a new comment that [appendComment] puts in the cache. *)
Definition cached_copy (w : World) (postID : Z) (user : User)
    (comment : string) (now : Time) : Comment :=
  mkComment (comments_auto_inc w) postID (User_ID user) comment now user.

(** Every cached user snapshot decodes. *)
Definition user_cache_wf `{JSON User} (m : gmap string bytes) : Prop :=
  ∀ uid v, m !! getUserCacheKey uid = Some v → ∃ u : User, unmarshal v = Ok u.

(** What [makePosts] attaches to a post, given the comment list [cs] that
    readers see for it: the count of all of them and, the [User] field
    aside, either all of them or the first three. *)
Definition attached (allComments : bool) (cs : list Comment) (q : Post) : Prop :=
  Post_CommentCount q = Z.of_nat (length cs)
  ∧ scanComment <$> Post_Comments q
    = scanComment <$> (if allComments then cs else take 3 cs).

(** The row of the store with a given id (the last one, should the id
    occur more than once). *)
Definition store_user (tbl : list User) (uid : Z) : option User :=
  last (filter (λ u, User_ID u = uid) tbl).

(** The user a reader gets for an id: the cached snapshot when there is
    one, the row of the store otherwise. *)
Definition user_view `{JSON User} (w : World) (uid : Z) : option User :=
  match cached_user (mc w) uid with
  | Some u => Some u
  | None => store_user (users_tbl w) uid
  end.

(** A comment with the user readers see for its author. *)
Definition attachViewed `{JSON User} (w : World) (c : Comment) : Comment :=
  mkComment (Comment_ID c) (Comment_PostID c) (Comment_UserID c)
            (Comment_Comment c) (Comment_CreatedAt c)
            (default zeroUser (user_view w (Comment_UserID c))).

(** A candidate post with what readers see for it in world [w]: the
    number of its comments, the comments shown (all of them, or the first
    three of the list), and its author. *)
Definition assemble `{JSON User, JSON (list Comment)} (w : World)
    (CSRFToken : string) (allComments : bool) (p : Post) : Post :=
  let cs := comments_view w (Post_ID p) in
  mkPost (Post_ID p) (Post_UserID p) (Post_Imgdata p) (Post_Body p)
         (Post_Mime p) (Post_CreatedAt p)
         (Z.of_nat (length cs))
         (attachViewed w <$> (if allComments then cs else take 3 cs))
         (default zeroUser (user_view w (Post_UserID p)))
         CSRFToken.

Definition author_shown (q : Post) : Prop := User_DelFlg (Post_User q) = 0.

Global Instance author_shown_dec q : Decision (author_shown q).
Proof. unfold author_shown. apply _. Defined.

(** The page of a candidate list: every candidate is assembled, those
    whose author is flagged as deleted are dropped, and the first
    [postsPerPage] of the others are kept, in candidate order. *)
Definition page_of `{JSON User, JSON (list Comment)} (w : World)
    (CSRFToken : string) (allComments : bool) (results : list Post)
  : list Post :=
  take (Z.to_nat postsPerPage)
       (filter author_shown (assemble w CSRFToken allComments <$> results)).


(** The state [makePosts] keeps while it walks the candidates: the
    environment is healthy, both caches decode, and readers see the same
    comments and the same users as in the initial world [w0]. *)
Definition makePosts_inv `{JSON User, JSON (list Comment)}
    (w0 w : World) : Prop :=
  healthy w ∧ comment_cache_wf (mc w) ∧ user_cache_wf (mc w)
  ∧ (∀ pid, comments_view w pid = comments_view w0 pid)
  ∧ (∀ uid, user_view w uid = user_view w0 uid)
  ∧ mc w !! getIndexPostsCacheKey = mc w0 !! getIndexPostsCacheKey.

(** The cached index page decodes. *)
Definition index_cache_wf `{JSON (list Post)} (m : gmap string bytes) : Prop :=
  ∀ v, m !! getIndexPostsCacheKey = Some v →
       ∃ posts : list Post, unmarshal v = Ok posts.

(** What a cache entry has to be, by the kind of its key. *)
Definition entry_ok `{JSON User, JSON (list Post), JSON (list Comment)}
    (k : string) (v : bytes) : Prop :=
  (∀ uid, k = getUserCacheKey uid → ∃ u : User, unmarshal v = Ok u)
  ∧ (k = getIndexPostsCacheKey → ∃ posts : list Post, unmarshal v = Ok posts)
  ∧ (∀ pid, k = getCommentsCacheKey pid →
       ∃ cs : list Comment, unmarshal v = Ok cs).

(** The invariant of the whole cache layer in a healthy environment:
    every entry decodes. *)
Definition caches_ok `{JSON User, JSON (list Post), JSON (list Comment)}
    (w : World) : Prop :=
  healthy w ∧ comment_cache_wf (mc w) ∧ user_cache_wf (mc w)
  ∧ index_cache_wf (mc w).

(** The codec laws, for the three types the cache layer encodes. *)
Definition lawful_codec `{JSON User, JSON (list Post), JSON (list Comment)}
  : Prop :=
  (roundtrip User ∧ marshal_total User)
  ∧ (roundtrip (list Post) ∧ marshal_total (list Post))
  ∧ (roundtrip (list Comment) ∧ marshal_total (list Comment)).

(** ** The worlds the program can reach *)

(** The calls a request handler makes into the cache layer. *)
Inductive Call :=
  | CallGetUsers (uids : list Z)
  | CallBanUserOnCache (userID : Z)
  | CallAppendUser (accountName passhash : string) (now dbnow : Time)
  | CallGetIndexPosts
  | CallInvalidateIndexPosts
  | CallGetComments (pid : Z)
  | CallAppendComment (postID : Z) (user : User) (comment : string)
                      (now dbnow : Time)
  | CallMakePosts (results : list Post) (CSRFToken : string) (allComments : bool)
  | CallDbInitialize.

Definition run_call `{JSON User, JSON (list Post), JSON (list Comment)}
    (c : Call) : M unit :=
  match c with
  | CallGetUsers uids => _ ← getUsers uids; mret tt
  | CallBanUserOnCache userID => banUserOnCache userID
  | CallAppendUser accountName passhash now dbnow =>
      _ ← appendUser accountName passhash now dbnow; mret tt
  | CallGetIndexPosts => _ ← getIndexPosts; mret tt
  | CallInvalidateIndexPosts => _ ← invalidateIndexPosts; mret tt
  | CallGetComments pid => _ ← getComments pid; mret tt
  | CallAppendComment postID user comment now dbnow =>
      _ ← appendComment postID user comment now dbnow; mret tt
  | CallMakePosts results CSRFToken allComments =>
      _ ← makePosts results CSRFToken allComments; mret tt
  | CallDbInitialize => dbInitialize
  end.

(** A world is reachable when a healthy environment got there from an
    empty cache (the process starts with [DeleteAll]) by calls made one
    after the other, whatever the clocks read. *)
Inductive reachable `{JSON User, JSON (list Post), JSON (list Comment)}
  : World → Prop :=
  | reachable_start w :
      healthy w → mc w = ∅ → reachable w
  | reachable_call w c o w' :
      reachable w → run_call c w = (o, w') → reachable w'.

(** * Properties *)

Ltac unfold_M :=
  unfold mbind, M_bind, mret, M_ret, gets, modify, lift, panic,
         mc_fault, db_send, next_fails in *.

Ltac case_faults w :=
  destruct w as [ut pt ct uai ai lg dbf lid m mcf]; simpl in *;
  try (destruct dbf as [|[] dbf]; simpl in *; try discriminate);
  try (destruct mcf as [|[] mcf]; simpl in *; try discriminate).

Ltac crunch :=
  repeat first [case_match | progress simplify_eq | progress simpl in *].

(** Two predicates that agree on the elements of a list filter it alike. *)
Lemma filter_agree {A} (P Q : A → Prop) `{∀ x, Decision (P x), ∀ x, Decision (Q x)}
    (l : list A) :
  (∀ x, x ∈ l → P x ↔ Q x) → filter P l = filter Q l.
Proof.
  induction l as [|x l IH]; intros Hagree; [done|].
  rewrite !filter_cons, IH by (intros; apply Hagree; by right).
  assert (P x ↔ Q x) as Hx by (apply Hagree; left).
  destruct (decide (P x)), (decide (Q x)); tauto.
Qed.

(** ** The reference codec satisfies the codec laws *)

Lemma RefCodec_undigits_digits p : RefCodec.undigits (RefCodec.digits p) = Some p.
Proof. induction p as [p IH|p IH|]; simpl; by rewrite ?IH. Qed.

Lemma RefCodec_roundtrip A `{Countable A} : roundtrip (H := RefCodec.json) A.
Proof.
  intros a s [= <-]. simpl. unfold RefCodec.decode_value.
  by rewrite RefCodec_undigits_digits; simpl; rewrite decode_encode.
Qed.

Lemma RefCodec_marshal_total A `{Countable A} : marshal_total (H := RefCodec.json) A.
Proof. intros a. by eexists. Qed.

(** ** Insertion sort *)

Section sorting.
Context {A : Type} (le : A → A → bool).
Hypothesis le_total : ∀ x y, le x y = true ∨ le y x = true.
Hypothesis le_trans : ∀ x y z, le x y = true → le y z = true → le x z = true.






End sorting.



Section properties.
Context `{JU : JSON User, JP : JSON (list Post), JC : JSON (list Comment)}.

(** *** CommentCache.append *)

(** C4. When the store accepts the INSERT and the cache has no entry for
    the post, [appendComment] returns a nil error, the store holds the
    new row, and the cache is left as it was: still without an entry for
    the post, no rebuild and no write. *)
Theorem appendComment_cache_absent postID user comment now dbnow w :
  next_fails (db_faults w) = false →
  mc w !! getCommentsCacheKey postID = None →
  ∃ w', appendComment postID user comment now dbnow w = (Returns None, w')
    ∧ comments_tbl w' =
        comments_tbl w ++ [inserted_row w postID user comment dbnow]
    ∧ db_log w' = db_log w ++ [InsertComment postID (User_ID user) comment]
    ∧ mc w' = mc w
    ∧ mc w' !! getCommentsCacheKey postID = None.
Proof.
  intros Hdb Hmiss. unfold appendComment, db_Exec_insert_comment, mc_Get.
  unfold_M. case_faults w; rewrite ?Hmiss; simpl; eauto 10.
Qed.

(** C10. [appendComment] is not atomic on error: once the store has
    accepted the INSERT, every error returned by a later step
    (undecodable cached list, generated id not available, list that
    cannot be marshalled) leaves the new row in the store, with the
    cache untouched. *)
Theorem appendComment_error_keeps_row postID user comment now dbnow w e w' :
  next_fails (db_faults w) = false →
  appendComment postID user comment now dbnow w = (Returns (Some e), w') →
  comments_tbl w' =
      comments_tbl w ++ [inserted_row w postID user comment dbnow]
  ∧ db_log w' = db_log w ++ [InsertComment postID (User_ID user) comment]
  ∧ mc w' = mc w.
Proof.
  intros Hdb. unfold appendComment, db_Exec_insert_comment, mc_Get, mc_Set.
  unfold_M. case_faults w; intros Hrun; crunch; auto.
Qed.

(** The three later steps, one by one. *)
Lemma appendComment_unmarshal_error postID user comment now dbnow w v e :
  next_fails (db_faults w) = false →
  next_fails (mc_faults w) = false →
  mc w !! getCommentsCacheKey postID = Some v →
  unmarshal (A := list Comment) v = Err e →
  ∃ w', appendComment postID user comment now dbnow w = (Returns (Some e), w').
Proof.
  intros Hdb Hmc Hv He. unfold appendComment, db_Exec_insert_comment, mc_Get.
  unfold_M. case_faults w; rewrite Hv, He; eauto.
Qed.

Lemma appendComment_lastid_error postID user comment now dbnow w v cs :
  next_fails (db_faults w) = false →
  next_fails (mc_faults w) = false →
  mc w !! getCommentsCacheKey postID = Some v →
  unmarshal v = Ok cs →
  db_lastid_fails w = true →
  ∃ w', appendComment postID user comment now dbnow w
        = (Returns (Some ErrLastInsertId), w').
Proof.
  intros Hdb Hmc Hv Hcs Hid. unfold appendComment, db_Exec_insert_comment, mc_Get.
  unfold_M. case_faults w; subst; rewrite Hv, Hcs; eauto.
Qed.

Lemma appendComment_marshal_error postID user comment now dbnow w v cs e :
  next_fails (db_faults w) = false →
  next_fails (mc_faults w) = false →
  mc w !! getCommentsCacheKey postID = Some v →
  unmarshal v = Ok cs →
  db_lastid_fails w = false →
  marshal (cs ++ [mkComment (comments_auto_inc w) postID (User_ID user)
                    comment now user]) = Err e →
  ∃ w', appendComment postID user comment now dbnow w = (Returns (Some e), w').
Proof.
  intros Hdb Hmc Hv Hcs Hid He.
  unfold appendComment, db_Exec_insert_comment, mc_Get.
  unfold_M. case_faults w; subst; rewrite Hv, Hcs; simpl; rewrite He; eauto.
Qed.

(** *** UserCache.invalidateSoftDelete *)

(** C8. [banUserOnCache] never touches the store.  Without a cached
    snapshot for the id it changes nothing in the cache either; with a
    snapshot [u] it overwrites the entry with the encoding of [u] whose
    deletion flag is 1, and that encoding decodes to a user that differs
    from [u] in the deletion flag only. *)
Theorem banUserOnCache_spec userID w r w' :
  banUserOnCache userID w = (r, w') →
  same_store w w'
  ∧ (mc w !! getUserCacheKey userID = None → r = Returns tt ∧ mc w' = mc w)
  ∧ (∀ v u s,
       mc_faults w = [] →
       mc w !! getUserCacheKey userID = Some v →
       unmarshal v = Ok u →
       marshal (banned u) = Ok s →
       r = Returns tt
       ∧ mc w' = <[getUserCacheKey userID := s]> (mc w)
       ∧ (roundtrip User →
          ∃ u', unmarshal s = Ok u'
            ∧ User_DelFlg u' = 1
            ∧ User_ID u' = User_ID u
            ∧ User_AccountName u' = User_AccountName u
            ∧ User_Passhash u' = User_Passhash u
            ∧ User_Authority u' = User_Authority u
            ∧ User_CreatedAt u' = User_CreatedAt u)).
Proof.
  unfold banUserOnCache, mc_Get, mc_Set, same_store. unfold_M.
  intros Hrun. split; [|split].
  - case_faults w; crunch; auto 10.
  - intros Hnone. case_faults w; crunch; auto.
  - intros v u s Hmc Hv Hu Hs. fold (banned u) in Hrun.
    destruct w as [ut pt ct uai ai lg dbf lid m mcf]; simpl in *; subst mcf.
    simpl in Hrun. rewrite Hv, Hu in Hrun. fold (banned u) in Hrun.
    rewrite Hs in Hrun. simpl in Hrun. simplify_eq. split; [done|split; [done|]].
    intros Hrt. exists (banned u). by rewrite (Hrt _ _ Hs).
Qed.

(** *** Cache keys *)

Lemma getUserCacheKey_inj uid uid' :
  getUserCacheKey uid = getUserCacheKey uid' → uid = uid'.
Proof.
  unfold getUserCacheKey, Itoa. simpl. intros Heq. simplify_eq.
  by apply (inj pretty).
Qed.

Lemma getCommentsCacheKey_inj pid pid' :
  getCommentsCacheKey pid = getCommentsCacheKey pid' → pid = pid'.
Proof.
  unfold getCommentsCacheKey, Itoa. simpl. intros Heq. simplify_eq.
  by apply (inj pretty).
Qed.

Lemma user_key_not_comments_key uid pid :
  getCommentsCacheKey pid ≠ getUserCacheKey uid.
Proof. discriminate. Qed.

Lemma user_key_not_index_key uid : getIndexPostsCacheKey ≠ getUserCacheKey uid.
Proof. discriminate. Qed.

Lemma comments_key_not_index_key pid :
  getIndexPostsCacheKey ≠ getCommentsCacheKey pid.
Proof. discriminate. Qed.

(** *** The cache backend *)

Lemma lookup_multi_lookup m keys k :
  multi_lookup m keys !! k = if decide (k ∈ keys) then m !! k else None.
Proof.
  induction keys as [|k' ks IH]; simpl.
  - by rewrite lookup_empty.
  - destruct (m !! k') as [v|] eqn:Hk'.
    + destruct (decide (k' = k)) as [->|Hne].
      * rewrite lookup_insert_eq, decide_True by left. done.
      * rewrite lookup_insert_ne, IH by done.
        destruct (decide (k ∈ ks)).
        -- by rewrite decide_True by (by right).
        -- by rewrite decide_False by (by apply not_elem_of_cons).
    + rewrite IH. destruct (decide (k' = k)) as [->|Hne].
      * rewrite (decide_True (P := k ∈ k :: ks)) by left.
        by case_decide.
      * destruct (decide (k ∈ ks)).
        -- by rewrite decide_True by (by right).
        -- by rewrite decide_False by (by apply not_elem_of_cons).
Qed.

Lemma lookup_multi_lookup_key m uids uid :
  uid ∈ uids →
  multi_lookup m (getUserCacheKey <$> uids) !! getUserCacheKey uid
  = m !! getUserCacheKey uid.
Proof.
  intros Hin. rewrite lookup_multi_lookup, decide_True; [done|].
  by apply list_elem_of_fmap_2.
Qed.

(** *** UserCache.batchGet, loop by loop *)

Lemma getUsers_hits_spec items uids users miss :
  decodable items uids →
  ∃ users',
    getUsers_hits items uids users miss
      = Returns (users', miss ++ missed items uids)
    ∧ ∀ id, users' !! id =
        match (if decide (id ∈ uids) then cached_user items id else None) with
        | Some u => Some u
        | None => users !! id
        end.
Proof.
  revert users miss. induction uids as [|uid rest IH]; intros users miss Hdec.
  - exists users. simpl. rewrite app_nil_r. split; [done|]. by intros id.
  - assert (decodable items rest) as Hrest.
    { intros ???. apply Hdec. by right. }
    simpl. unfold missed. rewrite filter_cons.
    destruct (items !! getUserCacheKey uid) as [v|] eqn:Hv.
    + destruct (Hdec uid v) as [u Hu]; [by left|done|]. rewrite Hu.
      rewrite decide_False by done.
      destruct (IH (<[uid := u]> users) miss Hrest) as (users' & -> & Hlk).
      exists users'. split; [done|]. intros id. rewrite Hlk.
      destruct (decide (id = uid)) as [->|Hne].
      * rewrite lookup_insert_eq. rewrite (decide_True (P := uid ∈ uid :: rest)) by left.
        unfold cached_user. rewrite Hv, Hu. by case_decide.
      * rewrite lookup_insert_ne by done.
        destruct (decide (id ∈ rest)).
        -- by rewrite decide_True by (by right).
        -- by rewrite decide_False by (by apply not_elem_of_cons).
    + rewrite decide_True by done.
      destruct (IH users (miss ++ [uid]) Hrest) as (users' & -> & Hlk).
      exists users'. split; [by rewrite <- app_assoc|]. intros id. rewrite Hlk.
      destruct (decide (id = uid)) as [->|Hne].
      * rewrite (decide_True (P := uid ∈ uid :: rest)) by left.
        unfold cached_user. rewrite Hv. by case_decide.
      * destruct (decide (id ∈ rest)).
        -- by rewrite decide_True by (by right).
        -- by rewrite decide_False by (by apply not_elem_of_cons).
Qed.

Lemma getUsers_backfill_spec rows users w :
  (∀ u, u ∈ rows → ∃ s, marshal u = Ok s) →
  ∃ w',
    getUsers_backfill rows users w = (Returns (merge_rows rows users), w')
    ∧ same_store w w'
    ∧ db_lastid_fails w' = db_lastid_fails w
    ∧ (∀ k, (∀ id, k ≠ getUserCacheKey id) → mc w' !! k = mc w !! k)
    ∧ (mc_faults w = [] → mc_faults w' = [] ∧ mc w' = cache_rows rows (mc w)).
Proof.
  revert users w. induction rows as [|u rows IH]; intros users w Hm.
  - exists w. unfold same_store. simpl. by unfold_M.
  - destruct (Hm u) as [s Hs]; [by left|]. simpl. rewrite Hs.
    unfold mc_Set. unfold_M.
    destruct w as [ut pt ct uai ai lg dbf lid m mcf]. simpl.
    destruct mcf as [|[] mcf]; simpl;
    match goal with |- context [getUsers_backfill rows ?us ?w1] =>
      destruct (IH us w1) as (w' & -> & Hst & Hlid & Hfr & Hmc);
        [intros; apply Hm; by right|]
    end; exists w'; unfold same_store in *; simpl in *;
    (split; [done|split; [done|split; [done|split]]]).
    + intros k Hk. rewrite Hfr by done. by rewrite lookup_insert_ne.
    + intros _. by apply Hmc.
    + done.
    + done.
    + intros k Hk. rewrite Hfr by done. by rewrite lookup_insert_ne.
    + done.
Qed.

(** *** Running the monad *)

Lemma run_bind {A B} (m : M A) (f : A → M B) w a w' :
  m w = (Returns a, w') → (m ≫= f) w = f a w'.
Proof. unfold mbind, M_bind. by intros ->. Qed.

Lemma mc_GetMulti_ok keys w :
  next_fails (mc_faults w) = false →
  mc_GetMulti keys w
  = (Returns (multi_lookup (mc w) keys, None),
     set_mc_faults (tail (mc_faults w)) w).
Proof. unfold mc_GetMulti. unfold_M. intros Hmc. by case_faults w. Qed.

Lemma mc_GetMulti_down keys w :
  next_fails (mc_faults w) = true →
  mc_GetMulti keys w
  = (Returns (∅, Some ErrCacheTransport), set_mc_faults (tail (mc_faults w)) w).
Proof. unfold mc_GetMulti. unfold_M. intros Hmc. by case_faults w. Qed.

Lemma mc_Get_ok key w :
  next_fails (mc_faults w) = false →
  mc_Get key w
  = (Returns (match mc w !! key with
              | Some v => Ok v
              | None => Err ErrCacheMiss
              end),
     set_mc_faults (tail (mc_faults w)) w).
Proof.
  unfold mc_Get. unfold_M. intros Hmc.
  case_faults w; by destruct (m !! key).
Qed.

Lemma mc_Set_ok key v w :
  next_fails (mc_faults w) = false →
  mc_Set key v w
  = (Returns None,
     set_mc (<[key := v]> (mc w)) (set_mc_faults (tail (mc_faults w)) w)).
Proof. unfold mc_Set. unfold_M. intros Hmc. by case_faults w. Qed.

Lemma db_Select_users_in_ok ids w :
  next_fails (db_faults w) = false →
  db_Select_users_in ids w
  = (Returns (user_rows (users_tbl w) ids, None),
     set_db_faults (tail (db_faults w)) (log_stmt (SelectUsersIn ids) w)).
Proof. unfold db_Select_users_in. unfold_M. intros Hdb. by case_faults w. Qed.

Lemma db_Select_users_in_failed ids w :
  next_fails (db_faults w) = true →
  db_Select_users_in ids w
  = (Returns ([], Some ErrStore),
     set_db_faults (tail (db_faults w)) (log_stmt (SelectUsersIn ids) w)).
Proof. unfold db_Select_users_in. unfold_M. intros Hdb. by case_faults w. Qed.

Lemma healthy_no_faults w :
  healthy w →
  next_fails (mc_faults w) = false ∧ next_fails (db_faults w) = false.
Proof. by intros (-> & -> & _). Qed.

Lemma set_mc_faults_healthy w : healthy w → set_mc_faults (tail (mc_faults w)) w = w.
Proof. destruct w. intros (? & ? & ?). simpl in *. by subst. Qed.

(** *** UserCache.batchGet as a whole *)

Lemma missed_multi_lookup m uids :
  missed (multi_lookup m (getUserCacheKey <$> uids)) uids = missed m uids.
Proof.
  unfold missed. apply filter_agree. intros uid Hin.
  by rewrite lookup_multi_lookup_key.
Qed.

Lemma cached_user_multi_lookup m uids uid :
  uid ∈ uids →
  cached_user (multi_lookup m (getUserCacheKey <$> uids)) uid = cached_user m uid.
Proof. intros Hin. unfold cached_user. by rewrite lookup_multi_lookup_key. Qed.

Lemma user_rows_nil tbl : user_rows tbl [] = [].
Proof.
  unfold user_rows. induction tbl as [|u tbl IH]; [done|].
  rewrite filter_cons, decide_False by set_solver. done.
Qed.

(** What one call does when the multi-get and the miss query go through. *)
Lemma getUsers_run uids w :
  next_fails (mc_faults w) = false →
  next_fails (db_faults w) = false →
  decodable (mc w) uids →
  (∀ u, u ∈ users_tbl w → ∃ s, marshal u = Ok s) →
  let rows := user_rows (users_tbl w) (missed (mc w) uids) in
  ∃ hits w',
    getUsers uids w = (Returns (Ok (merge_rows rows hits)), w')
    ∧ (∀ id, hits !! id
             = if decide (id ∈ uids) then cached_user (mc w) id else None)
    ∧ users_tbl w' = users_tbl w ∧ posts_tbl w' = posts_tbl w
    ∧ comments_tbl w' = comments_tbl w
    ∧ comments_auto_inc w' = comments_auto_inc w
    ∧ db_log w' = log_miss_query (db_log w) (missed (mc w) uids)
    ∧ (∀ k, (∀ id, k ≠ getUserCacheKey id) → mc w' !! k = mc w !! k)
    ∧ (healthy w → healthy w' ∧ mc w' = cache_rows rows (mc w)).
Proof.
  intros Hmc Hdb Hdec Hmar rows.
  destruct (getUsers_hits_spec (multi_lookup (mc w) (getUserCacheKey <$> uids))
              uids ∅ []) as (hits & Hhits & Hlk).
  { intros uid v Hin. rewrite lookup_multi_lookup_key by done. by apply Hdec. }
  rewrite missed_multi_lookup in Hhits. simpl in Hhits.
  assert (∀ id, hits !! id
                = if decide (id ∈ uids) then cached_user (mc w) id else None)
    as Hlk'.
  { intros id. rewrite Hlk, lookup_empty. case_decide; [|done].
    rewrite cached_user_multi_lookup by done. by destruct (cached_user _ _). }
  exists hits. unfold getUsers.
  erewrite run_bind by (by apply mc_GetMulti_ok). simpl.
  erewrite run_bind by (unfold lift; by rewrite Hhits). simpl.
  subst rows. destruct (missed (mc w) uids) as [|id0 ids] eqn:Hmiss.
  - rewrite decide_False by (simpl; lia). rewrite user_rows_nil. simpl.
    eexists. split; [done|]. split; [done|].
    destruct w; simpl in *. repeat split; try done.
    all: match goal with HH : healthy _ |- _ =>
           destruct HH as (? & ? & ?); simpl in *; by subst end.
  - rewrite decide_True by (simpl; lia).
    erewrite run_bind by (apply db_Select_users_in_ok; by destruct w). simpl.
    match goal with |- context [getUsers_backfill ?rs ?us] =>
      match goal with |- context [mbind _ _ ?w1] =>
        destruct (getUsers_backfill_spec rs us w1)
          as (w' & Hrun & Hst & Hlid & Hfr & Hh)
      end
    end.
    { destruct w; simpl. intros u Hu. apply Hmar.
      unfold user_rows in Hu. simpl in Hu. by apply list_elem_of_filter in Hu as [_ ?]. }
    erewrite run_bind by exact Hrun. unfold_M. exists w'.
    split; [by destruct w|]. split; [done|].
    destruct Hst as (? & ? & ? & ? & ? & ? & ?).
    destruct w; simpl in *. repeat split; try done.
    all: match goal with HH : healthy _ |- _ =>
           destruct HH as (? & ? & ?); simpl in *; subst; simpl in * end.
    all: try done; by apply Hh.
Qed.

Lemma lookup_merge_rows_is_Some rows users id :
  is_Some (merge_rows rows users !! id)
  ↔ id ∈ User_ID <$> rows ∨ is_Some (users !! id).
Proof.
  revert users. induction rows as [|u rows IH]; intros users; simpl.
  - rewrite elem_of_nil. tauto.
  - rewrite IH, elem_of_cons. destruct (decide (User_ID u = id)) as [<-|Hne].
    + rewrite lookup_insert_eq. split; [left; by left|by right].
    + rewrite lookup_insert_ne by done.
      split; [intros [?|?]; tauto|intros [[?|?]|?]; [congruence|tauto|tauto]].
Qed.

Lemma lookup_merge_rows_Some rows users id u :
  merge_rows rows users !! id = Some u →
  (u ∈ rows ∧ User_ID u = id) ∨ users !! id = Some u.
Proof.
  revert users. induction rows as [|u' rows IH]; intros users; simpl.
  - by right.
  - intros [[Hin Hid]|Hlk]%IH.
    + left. split; [by right|done].
    + destruct (decide (User_ID u' = id)) as [<-|Hne].
      * rewrite lookup_insert_eq in Hlk. simplify_eq. left. split; [left|done].
      * rewrite lookup_insert_ne in Hlk by done. by right.
Qed.

Lemma elem_of_user_rows_ids tbl ids id :
  id ∈ User_ID <$> user_rows tbl ids ↔ id ∈ ids ∧ id ∈ User_ID <$> tbl.
Proof.
  unfold user_rows. rewrite !list_elem_of_fmap. split.
  - intros (u & -> & [Hin Hu]%list_elem_of_filter). eauto.
  - intros (Hin & u & -> & Hu). exists u. split; [done|].
    by apply list_elem_of_filter.
Qed.

Lemma elem_of_missed m uids id :
  id ∈ missed m uids ↔ m !! getUserCacheKey id = None ∧ id ∈ uids.
Proof. unfold missed. by rewrite list_elem_of_filter. Qed.

Lemma missed_all m uids :
  (∀ uid, uid ∈ uids → m !! getUserCacheKey uid = None) → missed m uids = uids.
Proof.
  intros Hnone. unfold missed. induction uids as [|uid uids IH]; [done|].
  rewrite filter_cons_True by (apply Hnone; left).
  f_equal. apply IH. intros. apply Hnone. by right.
Qed.

Lemma cached_user_is_Some m uids id :
  decodable m uids → id ∈ uids →
  is_Some (cached_user m id) ↔ is_Some (m !! getUserCacheKey id).
Proof.
  intros Hdec Hin. unfold cached_user.
  destruct (m !! getUserCacheKey id) as [v|] eqn:Hv; [|done].
  destruct (Hdec id v Hin Hv) as [u ->]. split; eauto.
Qed.

(** The key set of the merged result of one call. *)
Lemma merged_key_set tbl m uids hits :
  decodable m uids →
  (∀ id, hits !! id = if decide (id ∈ uids) then cached_user m id else None) →
  ∀ id, is_Some (merge_rows (user_rows tbl (missed m uids)) hits !! id)
        ↔ id ∈ uids ∧ (is_Some (m !! getUserCacheKey id)
                       ∨ id ∈ User_ID <$> tbl).
Proof.
  intros Hdec Hhits id.
  rewrite lookup_merge_rows_is_Some, elem_of_user_rows_ids,
    elem_of_missed, Hhits.
  destruct (decide (id ∈ uids)) as [Hin|Hout].
  - rewrite (cached_user_is_Some _ _ _ Hdec Hin).
    destruct (m !! getUserCacheKey id) eqn:Hk.
    + split; [intros _; split; [done|left; eauto]|intros _; right; eauto].
    + split.
      * intros [((_ & _) & Hs)|[? ?]]; [|done]. split; [done|by right].
      * intros (_ & [[? ?]|Hs]); [done|]. by left.
  - split.
    + intros [((_ & ?) & _)|[? ?]]; done.
    + by intros (? & _).
Qed.

(** C1, as the code has it.  When the multi-get and the miss query go
    through and the cached payloads of the requested ids decode,
    [getUsers] returns a nil error and a mapping whose key set is exactly
    the requested ids that have a cache entry or a row in the store: ids
    found nowhere are absent, and no id outside the request is present. *)
Theorem getUsers_key_set uids w :
  next_fails (mc_faults w) = false →
  next_fails (db_faults w) = false →
  decodable (mc w) uids →
  (∀ u, u ∈ users_tbl w → ∃ s, marshal u = Ok s) →
  ∃ users w',
    getUsers uids w = (Returns (Ok users), w')
    ∧ ∀ id, id ∈ dom users
            ↔ id ∈ uids ∧ (is_Some (mc w !! getUserCacheKey id)
                           ∨ id ∈ User_ID <$> users_tbl w).
Proof.
  intros Hmc Hdb Hdec Hmar.
  destruct (getUsers_run uids w Hmc Hdb Hdec Hmar)
    as (hits & w' & Hrun & Hhits & _).
  eexists _, w'. split; [exact Hrun|]. intros id.
  rewrite elem_of_dom. by apply merged_key_set.
Qed.

(** C6. When the multi-get itself fails, [getUsers] takes every
    requested id for a miss, asks the store for the whole request in one
    statement and returns what the store has, with a nil error. *)
Theorem getUsers_cache_down uids w :
  next_fails (mc_faults w) = true →
  next_fails (db_faults w) = false →
  (∀ u, u ∈ users_tbl w → ∃ s, marshal u = Ok s) →
  ∃ users w',
    getUsers uids w = (Returns (Ok users), w')
    ∧ db_log w' = log_miss_query (db_log w) uids
    ∧ users = merge_rows (user_rows (users_tbl w) uids) ∅
    ∧ (∀ id, id ∈ dom users ↔ id ∈ uids ∧ id ∈ User_ID <$> users_tbl w)
    ∧ (∀ id u, users !! id = Some u → u ∈ users_tbl w ∧ User_ID u = id).
Proof.
  intros Hmc Hdb Hmar.
  destruct (getUsers_hits_spec ∅ uids ∅ []) as (hits & Hhits & Hlk).
  { intros uid v _. by rewrite lookup_empty. }
  rewrite (missed_all ∅ uids) in Hhits by (intros; apply lookup_empty).
  simpl in Hhits.
  assert (hits = ∅) as ->.
  { apply map_eq. intros id. rewrite Hlk, lookup_empty. unfold cached_user.
    rewrite lookup_empty. by case_decide. }
  assert (∀ us : gmap Z User,
    us = merge_rows (user_rows (users_tbl w) uids) ∅ →
    (∀ id, id ∈ dom us ↔ id ∈ uids ∧ id ∈ User_ID <$> users_tbl w)
    ∧ (∀ id u, us !! id = Some u → u ∈ users_tbl w ∧ User_ID u = id)) as Hres.
  { intros us ->. split.
    - intros id. rewrite elem_of_dom, lookup_merge_rows_is_Some,
        elem_of_user_rows_ids, lookup_empty.
      split; [intros [?|[? ?]]; done|by left].
    - intros id u [[Hin Hid]|Hlk']%lookup_merge_rows_Some.
      + unfold user_rows in Hin. by apply list_elem_of_filter in Hin as [_ ?].
      + by rewrite lookup_empty in Hlk'. }
  unfold getUsers.
  erewrite run_bind by (by apply mc_GetMulti_down). simpl.
  erewrite run_bind by (unfold lift; by rewrite Hhits). simpl.
  destruct uids as [|id0 ids].
  - rewrite decide_False by (simpl; lia). unfold_M.
    eexists _, _. split; [done|]. split; [by destruct w|].
    rewrite user_rows_nil. split; [done|]. apply Hres. by rewrite user_rows_nil.
  - rewrite decide_True by (simpl; lia).
    erewrite run_bind by (apply db_Select_users_in_ok; by destruct w). simpl.
    match goal with |- context [getUsers_backfill ?rs ?us] =>
      match goal with |- context [mbind _ _ ?w1] =>
        destruct (getUsers_backfill_spec rs us w1)
          as (w' & Hrun & Hst & _)
      end
    end.
    { destruct w; simpl. intros u Hu. apply Hmar.
      unfold user_rows in Hu. by apply list_elem_of_filter in Hu as [_ ?]. }
    erewrite run_bind by exact Hrun. unfold_M. exists (merge_rows (user_rows (users_tbl w) (id0 :: ids)) ∅), w'.
    destruct Hst as (? & ? & ? & ? & Hlog & ? & ?).
    split; [by destruct w|]. split; [by destruct w|]. split; [done|].
    by apply Hres.
Qed.

(** *** Store failures *)

(** C5, at [getUsers].  When the batched miss query fails, [getUsers]
    still returns a nil error, together with whatever the cache had (here
    nothing): the failure of the store is not reported to the caller. *)
Theorem getUsers_store_error_swallowed uids w :
  uids ≠ [] →
  next_fails (mc_faults w) = false →
  (∀ uid, uid ∈ uids → mc w !! getUserCacheKey uid = None) →
  next_fails (db_faults w) = true →
  ∃ w', getUsers uids w = (Returns (Ok ∅), w')
        ∧ db_log w' = db_log w ++ [SelectUsersIn uids].
Proof.
  intros Hne Hmc Hnone Hdb.
  destruct (getUsers_hits_spec (multi_lookup (mc w) (getUserCacheKey <$> uids))
              uids ∅ []) as (hits & Hhits & Hlk).
  { intros uid v Hin. rewrite lookup_multi_lookup_key, Hnone by done. done. }
  rewrite missed_multi_lookup, missed_all in Hhits by done. simpl in Hhits.
  assert (hits = ∅) as ->.
  { apply map_eq. intros id. rewrite Hlk, lookup_empty.
    case_decide; [|done].
    rewrite cached_user_multi_lookup by done. unfold cached_user.
    by rewrite Hnone. }
  unfold getUsers.
  erewrite run_bind by (by apply mc_GetMulti_ok). simpl.
  erewrite run_bind by (unfold lift; by rewrite Hhits). simpl.
  destruct uids as [|id0 ids]; [done|].
  rewrite decide_True by (simpl; lia).
  erewrite run_bind by (apply db_Select_users_in_failed; by destruct w).
  simpl. unfold_M. eexists. split; [done|]. by destruct w.
Qed.

(** No path of [getUsers] returns an error: whenever it returns, the
    caller gets a mapping and a nil error. *)
Lemma getUsers_never_errs uids w r w' :
  getUsers uids w = (Returns r, w') → ∃ users, r = Ok users.
Proof.
  unfold getUsers. unfold mbind, M_bind, mret, M_ret, lift.
  intros Hrun. repeat (case_match; simplify_eq); eauto.
Qed.

(** The sibling read paths do report the failure of their query. *)
Lemma getComments_store_error pid w :
  next_fails (mc_faults w) = false →
  mc w !! getCommentsCacheKey pid = None →
  next_fails (db_faults w) = true →
  ∃ w', getComments pid w = (Returns (Err ErrStore), w') ∧ mc w' = mc w.
Proof.
  intros Hmc Hnone Hdb. unfold getComments, db_Select_comments, mc_Get.
  unfold_M. case_faults w; rewrite Hnone; simpl; eauto.
Qed.

Lemma getIndexPosts_store_error w :
  next_fails (mc_faults w) = false →
  mc w !! getIndexPostsCacheKey = None →
  next_fails (db_faults w) = true →
  ∃ w', getIndexPosts w = (Returns (Err ErrStore), w') ∧ mc w' = mc w.
Proof.
  intros Hmc Hnone Hdb. unfold getIndexPosts, db_Select_index_posts, mc_Get.
  unfold_M. case_faults w; rewrite Hnone; simpl; eauto.
Qed.

(** *** Two calls in a row *)

(** Merging rows keeps the cache and the result in step, id by id. *)
Lemma cache_rows_agree rows users m id :
  roundtrip User →
  (∀ u, u ∈ rows → ∃ s, marshal u = Ok s) →
  cached_user m id = users !! id →
  cached_user (cache_rows rows m) id = merge_rows rows users !! id.
Proof.
  intros Hrt. revert users m. induction rows as [|u rows IH];
    intros users m Hmar Hagree; [done|].
  destruct (Hmar u) as [s Hs]; [by left|]. simpl. rewrite Hs.
  apply IH; [intros; apply Hmar; by right|].
  unfold cached_user. destruct (decide (User_ID u = id)) as [<-|Hne].
  - by rewrite !lookup_insert_eq, (Hrt _ _ Hs).
  - rewrite !lookup_insert_ne; [done|done|].
    intros Heq. by apply getUserCacheKey_inj in Heq.
Qed.

Lemma cache_rows_decodable rows m uids :
  roundtrip User →
  (∀ u, u ∈ rows → ∃ s, marshal u = Ok s) →
  decodable m uids → decodable (cache_rows rows m) uids.
Proof.
  intros Hrt. revert m. induction rows as [|u rows IH];
    intros m Hmar Hdec; [done|].
  destruct (Hmar u) as [s Hs]; [by left|]. simpl. rewrite Hs.
  apply IH; [intros; apply Hmar; by right|].
  intros uid v Hin.
  destruct (decide (getUserCacheKey (User_ID u) = getUserCacheKey uid))
    as [<-|Hne].
  - rewrite lookup_insert_eq. intros [= <-]. exists u. by apply Hrt.
  - rewrite lookup_insert_ne by done. by apply Hdec.
Qed.

Lemma filter_none {A} (P : A → Prop) `{∀ x, Decision (P x)} (l : list A) :
  (∀ x, x ∈ l → ¬ P x) → filter P l = [].
Proof.
  induction l as [|x l IH]; intros Hno; [done|].
  rewrite filter_cons_False by (apply Hno; left).
  apply IH. intros. apply Hno. by right.
Qed.

(** C2, as the code has it.  In a healthy environment with a codec that
    round-trips, two calls of [getUsers] in a row return the same
    mapping.  The second call sends no statement to the store when the
    first one found every requested id; otherwise it sends exactly one,
    for exactly the requested ids that were found nowhere. *)
Theorem getUsers_twice uids w :
  healthy w →
  roundtrip User →
  marshal_total User →
  decodable (mc w) uids →
  ∃ users w1 w2,
    getUsers uids w = (Returns (Ok users), w1)
    ∧ getUsers uids w1 = (Returns (Ok users), w2)
    ∧ db_log w2
      = log_miss_query (db_log w1) (filter (λ id, users !! id = None) uids)
    ∧ ((∀ id, id ∈ uids → id ∈ dom users) → db_log w2 = db_log w1).
Proof.
  intros Hw Hrt Htot Hdec.
  assert (∀ (tbl : list User) u, u ∈ tbl → ∃ s, marshal u = Ok s) as Hmar
    by (intros; apply Htot).
  destruct (healthy_no_faults w Hw) as [Hmc Hdb].
  destruct (getUsers_run uids w Hmc Hdb Hdec (Hmar _))
    as (hits & w1 & Hrun1 & Hhits & Hut & _ & _ & _ & _ & _ & Hw1).
  destruct (Hw1 Hw) as [Hw1h Hmc1]. clear Hw1.
  set (rows := user_rows (users_tbl w) (missed (mc w) uids)) in *.
  set (users := merge_rows rows hits) in *.
  assert (∀ id, id ∈ uids → cached_user (mc w1) id = users !! id) as Hagree.
  { intros id Hin. rewrite Hmc1. apply cache_rows_agree; [done|apply Hmar|].
    by rewrite Hhits, decide_True. }
  assert (decodable (mc w1) uids) as Hdec1.
  { rewrite Hmc1. apply cache_rows_decodable; [done|apply Hmar|done]. }
  assert (∀ id, is_Some (users !! id)
                ↔ id ∈ uids ∧ (is_Some (mc w !! getUserCacheKey id)
                               ∨ id ∈ User_ID <$> users_tbl w)) as Hdom
    by (by apply merged_key_set).
  assert (missed (mc w1) uids = filter (λ id, users !! id = None) uids)
    as Hmiss.
  { unfold missed. apply filter_agree. intros id Hin.
    rewrite !eq_None_not_Some, <- (Hagree id Hin).
    by rewrite (cached_user_is_Some _ _ _ Hdec1 Hin). }
  destruct (healthy_no_faults w1 Hw1h) as [Hmc' Hdb'].
  destruct (getUsers_run uids w1 Hmc' Hdb' Hdec1 (Hmar _))
    as (hits2 & w2 & Hrun2 & Hhits2 & _ & _ & _ & _ & Hlog2 & _).
  rewrite Hmiss in Hrun2, Hlog2. rewrite Hut in Hrun2.
  assert (user_rows (users_tbl w) (filter (λ id, users !! id = None) uids) = [])
    as Hnorows.
  { apply filter_none. intros u Hu [Hnone Hin]%list_elem_of_filter.
    assert (is_Some (users !! User_ID u)) as [? ?]; [|congruence].
    apply Hdom. split; [done|]. right. by apply list_elem_of_fmap_2. }
  rewrite Hnorows in Hrun2. simpl in Hrun2.
  assert (hits2 = users) as ->.
  { apply map_eq. intros id. rewrite Hhits2.
    destruct (decide (id ∈ uids)) as [Hin|Hout]; [by apply Hagree|].
    symmetry. apply eq_None_not_Some. rewrite Hdom. by intros [? _]. }
  exists users, w1, w2. split; [done|]. split; [done|]. split; [done|].
  intros Hall. rewrite Hlog2, filter_none; [done|].
  intros id Hin Hnone. apply Hall, elem_of_dom in Hin as [? ?]. congruence.
Qed.

(** *** PostIndexCache *)





Lemma getIndexPosts_miss w s :
  mc_faults w = [] →
  next_fails (db_faults w) = false →
  mc w !! getIndexPostsCacheKey = None →
  marshal (index_rows (users_tbl w) (posts_tbl w) postsPerPage) = Ok s →
  getIndexPosts w
  = (Returns (Ok (index_rows (users_tbl w) (posts_tbl w) postsPerPage)),
     set_mc (<[getIndexPostsCacheKey := s]> (mc w))
       (set_db_faults (tail (db_faults w))
          (log_stmt (SelectIndexPosts postsPerPage) w))).
Proof.
  intros Hmc Hdb Hnone Hs. unfold getIndexPosts, db_Select_index_posts, mc_Get, mc_Set.
  unfold_M. destruct w as [ut pt ct uai ai lg dbf lid m mcf]. simpl in *. subst mcf.
  simpl. rewrite Hnone. destruct dbf as [|[] dbf]; simpl in *; try done;
    by rewrite Hs.
Qed.

Lemma getIndexPosts_hit w s posts :
  next_fails (mc_faults w) = false →
  mc w !! getIndexPostsCacheKey = Some s →
  unmarshal s = Ok posts →
  getIndexPosts w = (Returns (Ok posts), set_mc_faults (tail (mc_faults w)) w).
Proof.
  intros Hmc Hsome Hs. unfold getIndexPosts.
  erewrite run_bind by (by apply mc_Get_ok). by rewrite Hsome, Hs.
Qed.

Lemma invalidateIndexPosts_healthy w :
  mc_faults w = [] →
  ∃ e, invalidateIndexPosts w
       = (Returns e, set_mc (delete getIndexPostsCacheKey (mc w)) w).
Proof.
  intros Hmc. unfold invalidateIndexPosts, mc_Delete. unfold_M.
  destruct w as [ut pt ct uai ai lg dbf lid m mcf]. simpl in *. subst mcf. simpl.
  destruct (m !! getIndexPostsCacheKey) eqn:Hk; simpl; [by eexists|].
  unfold set_mc. simpl. rewrite delete_id by done. by eexists.
Qed.


(** *** CommentCache *)





Lemma getComments_hit pid w v cs :
  next_fails (mc_faults w) = false →
  mc w !! getCommentsCacheKey pid = Some v →
  unmarshal v = Ok cs →
  getComments pid w = (Returns (Ok cs), set_mc_faults (tail (mc_faults w)) w).
Proof.
  intros Hmc Hsome Hs. unfold getComments.
  erewrite run_bind by (by apply mc_Get_ok). by rewrite Hsome, Hs.
Qed.

Lemma getComments_miss pid w s :
  mc_faults w = [] →
  next_fails (db_faults w) = false →
  mc w !! getCommentsCacheKey pid = None →
  marshal (comment_rows (comments_tbl w) pid) = Ok s →
  getComments pid w
  = (Returns (Ok (comment_rows (comments_tbl w) pid)),
     set_mc (<[getCommentsCacheKey pid := s]> (mc w))
       (set_db_faults (tail (db_faults w)) (log_stmt (SelectComments pid) w))).
Proof.
  intros Hmc Hdb Hnone Hs. unfold getComments, db_Select_comments, mc_Get, mc_Set.
  unfold_M. destruct w as [ut pt ct uai ai lg dbf lid m mcf]. simpl in *. subst mcf.
  simpl. rewrite Hnone. destruct dbf as [|[] dbf]; simpl in *; try done;
    by rewrite Hs.
Qed.

Lemma cached_comments_insert m pid s cs pid' :
  unmarshal s = Ok cs →
  cached_comments (<[getCommentsCacheKey pid := s]> m) pid'
  = if decide (pid' = pid) then Some cs else cached_comments m pid'.
Proof.
  intros Hs. unfold cached_comments. case_decide as Hp.
  - subst. by rewrite lookup_insert_eq, Hs.
  - rewrite lookup_insert_ne; [done|].
    intros Heq. by apply getCommentsCacheKey_inj in Heq.
Qed.

(** What [getComments] returns and leaves behind in a healthy world whose
    comment cache decodes. *)
Lemma getComments_view pid w :
  healthy w →
  roundtrip (list Comment) →
  marshal_total (list Comment) →
  comment_cache_wf (mc w) →
  ∃ w',
    getComments pid w = (Returns (Ok (comments_view w pid)), w')
    ∧ healthy w' ∧ comment_cache_wf (mc w')
    ∧ users_tbl w' = users_tbl w ∧ posts_tbl w' = posts_tbl w
    ∧ comments_tbl w' = comments_tbl w
    ∧ comments_auto_inc w' = comments_auto_inc w
    ∧ (∀ k, k ≠ getCommentsCacheKey pid → mc w' !! k = mc w !! k)
    ∧ (∀ pid', comments_view w' pid' = comments_view w pid').
Proof.
  intros Hw Hrt Htot Hmc.
  pose proof Hw as (Hdb & Hmcf & Hlid).
  unfold comments_view at 1. unfold cached_comments.
  destruct (mc w !! getCommentsCacheKey pid) as [v|] eqn:Hv.
  - destruct (Hmc pid v Hv) as (cs & Hcs). rewrite Hcs.
    rewrite (getComments_hit pid w v cs) by (by rewrite ?Hmcf).
    rewrite set_mc_faults_healthy by done. exists w. by repeat split.
  - destruct (Htot (comment_rows (comments_tbl w) pid)) as [s Hs].
    rewrite (getComments_miss pid w s) by (by rewrite ?Hdb).
    eexists. split; [done|].
    destruct w as [ut pt ct uai ai lg dbf lid m mcf]. simpl in *. subst. simpl.
    split; [done|]. split; [|repeat split; try done].
    + intros pid' v'. destruct (decide (pid' = pid)) as [->|Hp].
      * rewrite lookup_insert_eq. intros [= <-].
        exists (comment_rows ct pid). by apply Hrt.
      * rewrite lookup_insert_ne; [apply Hmc|].
        intros Heq. by apply getCommentsCacheKey_inj in Heq.
    + intros k Hk. simpl. by rewrite lookup_insert_ne.
    + intros pid'. unfold comments_view. simpl.
      rewrite (cached_comments_insert _ _ _ _ _ (Hrt _ _ Hs)).
      case_decide as Hp; [|done]. subst. unfold cached_comments. by rewrite Hv.
Qed.

Lemma appendComment_miss postID user comment now dbnow w :
  healthy w →
  mc w !! getCommentsCacheKey postID = None →
  appendComment postID user comment now dbnow w
  = (Returns None,
     insert_comment_row (inserted_row w postID user comment dbnow)
       (log_stmt (InsertComment postID (User_ID user) comment) w)).
Proof.
  intros (Hdb & Hmc & Hlid) Hnone.
  unfold appendComment, db_Exec_insert_comment, mc_Get. unfold_M.
  destruct w as [ut pt ct uai ai lg dbf lid m mcf]. simpl in *. subst. simpl.
  by rewrite Hnone.
Qed.

Lemma appendComment_hit postID user comment now dbnow w v cs s :
  healthy w →
  mc w !! getCommentsCacheKey postID = Some v →
  unmarshal v = Ok cs →
  marshal (cs ++ [cached_copy w postID user comment now]) = Ok s →
  appendComment postID user comment now dbnow w
  = (Returns None,
     set_mc (<[getCommentsCacheKey postID := s]> (mc w))
       (insert_comment_row (inserted_row w postID user comment dbnow)
          (log_stmt (InsertComment postID (User_ID user) comment) w))).
Proof.
  intros (Hdb & Hmc & Hlid) Hv Hcs Hs.
  unfold appendComment, db_Exec_insert_comment, mc_Get, mc_Set. unfold_M.
  unfold cached_copy in Hs.
  destruct w as [ut pt ct uai ai lg dbf lid m mcf]. simpl in *. subst. simpl.
  rewrite Hv, Hcs. simpl. by rewrite Hs.
Qed.

(** One append to a post whose comment list is cached: the copy built
    from the request goes to the end of the cached list, whatever the
    clocks read. *)
Lemma appendComment_cached postID user comment now dbnow w v cs :
  healthy w →
  roundtrip (list Comment) →
  marshal_total (list Comment) →
  mc w !! getCommentsCacheKey postID = Some v →
  unmarshal v = Ok cs →
  ∃ w' s,
    appendComment postID user comment now dbnow w = (Returns None, w')
    ∧ healthy w'
    ∧ mc w' = <[getCommentsCacheKey postID := s]> (mc w)
    ∧ unmarshal s = Ok (cs ++ [cached_copy w postID user comment now])
    ∧ comments_tbl w'
      = comments_tbl w ++ [inserted_row w postID user comment dbnow]
    ∧ comments_auto_inc w' = comments_auto_inc w + 1
    ∧ users_tbl w' = users_tbl w ∧ posts_tbl w' = posts_tbl w.
Proof.
  intros Hw Hrt Htot Hv Hcs.
  destruct (Htot (cs ++ [cached_copy w postID user comment now])) as [s Hs].
  rewrite (appendComment_hit _ _ _ _ _ _ v cs s) by done.
  eexists _, s. split; [done|].
  destruct w as [ut pt ct uai ai lg dbf lid m mcf].
  destruct Hw as (? & ? & ?). simpl in *. subst.
  split; [done|]. split; [done|]. split; [by apply Hrt|]. done.
Qed.

(** One append to a post whose comment list is not cached: the row goes
    to the store and the cache is left alone. *)
Lemma appendComment_uncached postID user comment now dbnow w :
  healthy w →
  mc w !! getCommentsCacheKey postID = None →
  ∃ w',
    appendComment postID user comment now dbnow w = (Returns None, w')
    ∧ healthy w'
    ∧ mc w' = mc w
    ∧ comments_tbl w'
      = comments_tbl w ++ [inserted_row w postID user comment dbnow]
    ∧ comments_auto_inc w' = comments_auto_inc w + 1
    ∧ users_tbl w' = users_tbl w ∧ posts_tbl w' = posts_tbl w.
Proof.
  intros Hw Hnone. rewrite appendComment_miss by done.
  eexists. split; [done|].
  destruct w as [ut pt ct uai ai lg dbf lid m mcf].
  destruct Hw as (? & ? & ?). simpl in *. by subst.
Qed.




(** *** Aggregation *)

Lemma shownComments_take allComments cs :
  shownComments allComments cs = if allComments then cs else take 3 cs.
Proof.
  unfold shownComments. destruct allComments; simpl; [done|].
  destruct (3 <? Z.of_nat (length cs)) eqn:Hlen; [done|].
  apply Z.ltb_ge in Hlen. rewrite take_ge; [done|lia].
Qed.

Lemma user_cache_wf_decodable m uids : user_cache_wf m → decodable m uids.
Proof. intros Hwf uid v _. apply Hwf. Qed.

Lemma cache_rows_wf rows m :
  roundtrip User →
  (∀ u, u ∈ rows → ∃ s, marshal u = Ok s) →
  user_cache_wf m → user_cache_wf (cache_rows rows m).
Proof.
  intros Hrt Hmar Hwf uid v.
  apply (cache_rows_decodable rows m [uid] Hrt Hmar); [|left].
  by apply user_cache_wf_decodable.
Qed.

Lemma cached_user_Some_lookup m id u :
  cached_user m id = Some u → is_Some (m !! getUserCacheKey id).
Proof. unfold cached_user. by destruct (m !! getUserCacheKey id). Qed.

Lemma lookup_merge_rows rows users id :
  merge_rows rows users !! id
  = match store_user rows id with Some u => Some u | None => users !! id end.
Proof.
  revert users. induction rows as [|u rows IH]; intros users; [done|].
  unfold merge_rows, store_user in *. simpl. rewrite IH, filter_cons.
  destruct (decide (User_ID u = id)) as [<-|Hne].
  - destruct (filter _ rows) as [|x l] eqn:Hf; simpl.
    + by rewrite lookup_insert_eq.
    + destruct (last_is_Some (x :: l)) as [_ [y Hy]]; [done|].
      simpl in Hy. by rewrite Hy.
  - destruct (last _); [done|]. by rewrite lookup_insert_ne.
Qed.

Lemma store_user_user_rows tbl ids id :
  id ∈ ids → store_user (user_rows tbl ids) id = store_user tbl id.
Proof.
  intros Hin. unfold store_user, user_rows. rewrite list_filter_filter.
  f_equal. apply filter_agree. intros u _. split; [tauto|]. by intros <-.
Qed.

Lemma store_user_user_rows_other tbl ids id :
  id ∉ ids → store_user (user_rows tbl ids) id = None.
Proof.
  intros Hin. unfold store_user, user_rows. rewrite list_filter_filter.
  rewrite filter_none; [done|]. intros u _ [<- ?]. done.
Qed.

Lemma cached_user_wf_None m id :
  user_cache_wf m → cached_user m id = None → m !! getUserCacheKey id = None.
Proof.
  intros Hwf. unfold cached_user.
  destruct (m !! getUserCacheKey id) as [v|] eqn:Hv; [|done].
  destruct (Hwf id v Hv) as [u ->]. done.
Qed.

(** In a healthy world whose user cache decodes, [getUsers] returns for
    every requested id the user readers see, and does not change what
    they see for any id. *)
Lemma getUsers_view uids w :
  healthy w → roundtrip User → marshal_total User → user_cache_wf (mc w) →
  ∃ users w',
    getUsers uids w = (Returns (Ok users), w')
    ∧ (∀ id, id ∈ uids → users !! id = user_view w id)
    ∧ (∀ id, user_view w' id = user_view w id).
Proof.
  intros Hw Hrt Htot Hwf.
  assert (∀ (tbl : list User) u, u ∈ tbl → ∃ s, marshal u = Ok s) as Hmar
    by (intros; apply Htot).
  destruct (healthy_no_faults w Hw) as [Hmc Hdb].
  destruct (getUsers_run uids w Hmc Hdb (user_cache_wf_decodable _ _ Hwf) (Hmar _))
    as (hits & w' & Hrun & Hhits & Hut & _ & _ & _ & _ & _ & Hh).
  destruct (Hh Hw) as [_ Hmc'].
  eexists _, w'. split; [exact Hrun|]. split.
  - intros id Hin. rewrite lookup_merge_rows, Hhits, decide_True by done.
    unfold user_view. destruct (cached_user (mc w) id) as [u|] eqn:Hc.
    + rewrite store_user_user_rows_other; [done|].
      rewrite elem_of_missed. intros [Hnone _].
      apply cached_user_Some_lookup in Hc. rewrite Hnone in Hc. by destruct Hc.
    + rewrite store_user_user_rows.
      * by destruct (store_user (users_tbl w) id).
      * apply elem_of_missed. split; [by apply cached_user_wf_None|done].
  - intros id. unfold user_view. rewrite Hmc', Hut.
    destruct (cached_user (mc w) id) as [u|] eqn:Hc.
    + rewrite (cache_rows_agree _ {[id := u]} _ _ Hrt (Hmar _))
        by (by rewrite lookup_singleton_eq).
      rewrite lookup_merge_rows, store_user_user_rows_other.
      * by rewrite lookup_singleton_eq.
      * rewrite elem_of_missed. intros [Hnone _].
        apply cached_user_Some_lookup in Hc. rewrite Hnone in Hc. by destruct Hc.
    + rewrite (cache_rows_agree _ ∅ _ _ Hrt (Hmar _)) by done.
      rewrite lookup_merge_rows, lookup_empty.
      destruct (decide (id ∈ missed (mc w) uids)) as [Hin|Hin].
      * rewrite store_user_user_rows by done.
        by destruct (store_user (users_tbl w) id).
      * by rewrite store_user_user_rows_other.
Qed.

Lemma scanComment_attachViewed w (cs : list Comment) :
  scanComment <$> (attachViewed w <$> cs) = scanComment <$> cs.
Proof. rewrite <- list_fmap_compose. by apply list_fmap_ext. Qed.

Lemma makePosts_inv_start w :
  healthy w → comment_cache_wf (mc w) → user_cache_wf (mc w) →
  makePosts_inv w w.
Proof. intros Hw Hc Hu. split; [done|]. split; [done|]. by split. Qed.

Lemma makePosts_inv_getComments w0 w pid :
  roundtrip (list Comment) →
  marshal_total (list Comment) →
  makePosts_inv w0 w →
  ∃ w', getComments pid w = (Returns (Ok (comments_view w0 pid)), w')
        ∧ makePosts_inv w0 w'.
Proof.
  intros Hrt Htot (Hw & Hc & Hwf & Hview & Huv & Hindex).
  destruct (getComments_view pid w Hw Hrt Htot Hc)
    as (w' & Hrun & Hw' & Hc' & Hut & _ & _ & _ & Hfr & Hview').
  exists w'. rewrite <- Hview. split; [done|].
  assert (∀ uid, mc w' !! getUserCacheKey uid = mc w !! getUserCacheKey uid)
    as Hkeys.
  { intros uid. apply Hfr.
    intros Heq. symmetry in Heq. by apply user_key_not_comments_key in Heq. }
  split; [done|]. split; [done|]. split; [|split; [|split]].
  - intros uid v. rewrite Hkeys. apply Hwf.
  - intros pid'. by rewrite Hview'.
  - intros uid. rewrite <- Huv. unfold user_view, cached_user.
    by rewrite Hut, Hkeys.
  - rewrite Hfr; [done|]. apply comments_key_not_index_key.
Qed.

Lemma makePosts_inv_getUsers w0 w uids :
  roundtrip User →
  marshal_total User →
  makePosts_inv w0 w →
  ∃ users w', getUsers uids w = (Returns (Ok users), w')
              ∧ makePosts_inv w0 w'
              ∧ (∀ id, id ∈ uids → users !! id = user_view w0 id).
Proof.
  intros Hrt Htot (Hw & Hc & Hwf & Hview & Huv & Hindex).
  assert (∀ (tbl : list User) u, u ∈ tbl → ∃ s, marshal u = Ok s) as Hmar
    by (intros; apply Htot).
  destruct (healthy_no_faults w Hw) as [Hmc Hdb].
  destruct (getUsers_run uids w Hmc Hdb (user_cache_wf_decodable _ _ Hwf) (Hmar _))
    as (hits & w' & Hrun & _ & _ & _ & Hct & _ & _ & Hfr & Hh).
  destruct (getUsers_view uids w Hw Hrt Htot Hwf)
    as (users' & w'' & Hrun' & Hlook & Huv').
  assert (users' = merge_rows (user_rows (users_tbl w) (missed (mc w) uids)) hits
          ∧ w'' = w') as [-> ->] by (split; congruence).
  destruct (Hh Hw) as [Hw' Hmc'].
  eexists _, w'. split; [exact Hrun|].
  assert (∀ pid, mc w' !! getCommentsCacheKey pid
                 = mc w !! getCommentsCacheKey pid) as Hkeys.
  { intros pid. apply Hfr. intros id. apply user_key_not_comments_key. }
  split; [|by intros id Hid; rewrite Hlook, Huv].
  split; [done|]. split; [|split; [|split; [|split]]].
  - intros pid v. rewrite Hkeys. apply Hc.
  - rewrite Hmc'. by apply cache_rows_wf.
  - intros pid. rewrite <- Hview. unfold comments_view, cached_comments.
    by rewrite Hkeys, Hct.
  - intros uid. by rewrite Huv'.
  - rewrite Hfr; [done|]. intros id. apply user_key_not_index_key.
Qed.

(** The loop of [makePosts] under its invariant: it adds to the posts
    accumulated so far the first of the remaining candidates, assembled,
    whose author is shown, until the page is full. *)
Lemma makePosts_loop_page w0 CSRFToken allComments results :
  roundtrip User → marshal_total User →
  roundtrip (list Comment) → marshal_total (list Comment) →
  ∀ posts w,
    makePosts_inv w0 w →
    (length posts < Z.to_nat postsPerPage)%nat →
    ∃ w',
      makePosts_loop results CSRFToken allComments posts w
      = (Returns (Ok (posts ++
           take (Z.to_nat postsPerPage - length posts)
                (filter author_shown
                   (assemble w0 CSRFToken allComments <$> results)))), w')
      ∧ makePosts_inv w0 w'.
Proof.
  intros HrtU HtotU HrtC HtotC.
  induction results as [|p rest IH]; intros posts w Hinv Hlen.
  - exists w. split; [|done]. rewrite fmap_nil, filter_nil, take_nil, app_nil_r. done.
  - simpl.
    destruct (makePosts_inv_getComments w0 w (Post_ID p) HrtC HtotC Hinv)
      as (w1 & Hget & Hinv1).
    erewrite run_bind by exact Hget. simpl.
    match goal with |- context [getUsers ?uids] =>
      destruct (makePosts_inv_getUsers w0 w1 uids HrtU HtotU Hinv1)
        as (users & w2 & Husers & Hinv2 & Hlook)
    end.
    erewrite run_bind by exact Husers. simpl.
    assert (default zeroUser (users !! Post_UserID p)
            = default zeroUser (user_view w0 (Post_UserID p))) as Hau.
    { rewrite Hlook; [done|]. left. }
    match goal with |- context [posts ++ [?q]] =>
      assert (q = assemble w0 CSRFToken allComments p) as ->
    end.
    { unfold assemble. rewrite shownComments_take, Hau. f_equal.
      apply list_fmap_ext. intros i c Hc. unfold attachUser, attachViewed.
      rewrite Hlook; [done|]. right.
      apply list_elem_of_fmap_2. rewrite shownComments_take.
      by eapply list_elem_of_lookup_2. }
    rewrite Hau, filter_cons.
    change (Z.to_nat postsPerPage) with 20%nat in *.
    destruct (decide (User_DelFlg (default zeroUser
                        (user_view w0 (Post_UserID p))) = 0)) as [Hshown|Hshown].
    + rewrite (decide_True (P := author_shown (assemble w0 CSRFToken allComments p)))
        by exact Hshown.
      destruct (20 - length posts)%nat as [|k] eqn:Hk; [lia|]. simpl.
      case_decide as Hfull.
      * exists w2. split; [|done].
        rewrite length_app in Hfull. simpl in Hfull.
        unfold postsPerPage in Hfull.
        assert (k = 0%nat) as -> by lia. by rewrite take_0.
      * rewrite length_app in Hfull. simpl in Hfull. unfold postsPerPage in Hfull.
        destruct (IH (posts ++ [assemble w0 CSRFToken allComments p]) w2)
          as (w' & Hrun & Hinv'); [done|rewrite length_app; simpl; lia|].
        exists w'. split; [|done]. rewrite Hrun, length_app. simpl.
        rewrite <- app_assoc. simpl.
        by replace (20 - (length posts + 1))%nat with k by lia.
    + rewrite (decide_False (P := author_shown (assemble w0 CSRFToken allComments p)))
        by exact Hshown.
      case_decide as Hfull; [unfold postsPerPage in Hfull; lia|].
      by apply IH.
Qed.

(** What [makePosts] returns under the invariant of its caches. *)
Lemma makePosts_runs results CSRFToken allComments w :
  roundtrip User → marshal_total User →
  roundtrip (list Comment) → marshal_total (list Comment) →
  healthy w → comment_cache_wf (mc w) → user_cache_wf (mc w) →
  ∃ w',
    makePosts results CSRFToken allComments w
    = (Returns (Ok (page_of w CSRFToken allComments results)), w')
    ∧ makePosts_inv w w'.
Proof.
  intros HrtU HtotU HrtC HtotC Hw Hc Hu.
  destruct (makePosts_loop_page w CSRFToken allComments results
              HrtU HtotU HrtC HtotC [] w) as (w' & Hrun & Hinv).
  - by apply makePosts_inv_start.
  - simpl. unfold postsPerPage. lia.
  - exists w'. split; [|done]. unfold makePosts. by rewrite Hrun.
Qed.

(** *** The invariant of the cache layer *)

Lemma entry_ok_user uid s (u : User) :
  unmarshal s = Ok u → entry_ok (getUserCacheKey uid) s.
Proof.
  intros Hs. split; [eauto|]. split.
  - intros Heq. symmetry in Heq. by apply user_key_not_index_key in Heq.
  - intros pid Heq. symmetry in Heq. by apply user_key_not_comments_key in Heq.
Qed.

Lemma entry_ok_index s (posts : list Post) :
  unmarshal s = Ok posts → entry_ok getIndexPostsCacheKey s.
Proof.
  intros Hs. split; [|split; [eauto|]].
  - intros uid Heq. by apply user_key_not_index_key in Heq.
  - intros pid Heq. by apply comments_key_not_index_key in Heq.
Qed.

Lemma entry_ok_comments pid s (cs : list Comment) :
  unmarshal s = Ok cs → entry_ok (getCommentsCacheKey pid) s.
Proof.
  intros Hs. split; [|split; [|eauto]].
  - intros uid Heq. by apply user_key_not_comments_key in Heq.
  - intros Heq. symmetry in Heq. by apply comments_key_not_index_key in Heq.
Qed.

Lemma caches_ok_entry w k v :
  caches_ok w → mc w !! k = Some v → entry_ok k v.
Proof.
  intros (_ & Hc & Hu & Hi) Hk. split; [|split].
  - intros uid ->. by eapply Hu.
  - intros ->. by apply Hi.
  - intros pid ->. by apply (Hc pid).
Qed.

(** A world keeps the invariant when it stays healthy and each of its
    cache entries is an old one or a good new one. *)
Lemma caches_ok_update w w' :
  caches_ok w →
  healthy w' →
  (∀ k v, mc w' !! k = Some v → mc w !! k = Some v ∨ entry_ok k v) →
  caches_ok w'.
Proof.
  intros Hok Hw' Hentries.
  assert (∀ k v, mc w' !! k = Some v → entry_ok k v) as Hall.
  { intros k v [Hold|Hnew]%Hentries; [by eapply caches_ok_entry|done]. }
  split; [done|]. split; [|split].
  - intros pid v Hv. destruct (Hall _ _ Hv) as (_ & _ & Hc). by apply (Hc pid).
  - intros uid v Hv. destruct (Hall _ _ Hv) as (Hu & _). by apply (Hu uid).
  - intros v Hv. destruct (Hall _ _ Hv) as (_ & Hi & _). by apply Hi.
Qed.

Lemma caches_ok_start w : healthy w → mc w = ∅ → caches_ok w.
Proof.
  intros Hw Hmc. split; [done|]. split; [|split].
  - intros pid v. by rewrite Hmc, lookup_empty.
  - intros uid v. by rewrite Hmc, lookup_empty.
  - intros v. by rewrite Hmc, lookup_empty.
Qed.

Lemma mc_Get_healthy key w :
  healthy w →
  mc_Get key w
  = (Returns (match mc w !! key with
              | Some v => Ok v
              | None => Err ErrCacheMiss
              end), w).
Proof.
  intros Hw. rewrite mc_Get_ok by (by apply healthy_no_faults).
  by rewrite set_mc_faults_healthy.
Qed.

Lemma mc_Set_healthy key v w :
  healthy w → mc_Set key v w = (Returns None, set_mc (<[key := v]> (mc w)) w).
Proof.
  intros Hw. rewrite mc_Set_ok by (by apply healthy_no_faults).
  by rewrite set_mc_faults_healthy.
Qed.

Lemma healthy_set_mc m w : healthy w → healthy (set_mc m w).
Proof. by intros (? & ? & ?). Qed.

Lemma caches_ok_set w k s :
  caches_ok w → entry_ok k s →
  caches_ok (set_mc (<[k := s]> (mc w)) w).
Proof.
  intros Hok Hs. eapply caches_ok_update; [exact Hok| |].
  - apply healthy_set_mc, Hok.
  - destruct w. simpl.
    intros k' v' [[<- <-]|[_ Hold]]%lookup_insert_Some; [by right|by left].
Qed.

Lemma makePosts_inv_caches_ok w0 w :
  caches_ok w0 → makePosts_inv w0 w → caches_ok w.
Proof.
  intros (_ & _ & _ & Hi) (Hw & Hc & Hu & _ & _ & Hindex).
  split; [done|]. split; [done|]. split; [done|].
  intros v. rewrite Hindex. apply Hi.
Qed.

Lemma getUsers_keeps uids w :
  roundtrip User → marshal_total User →
  caches_ok w →
  ∃ users w', getUsers uids w = (Returns (Ok users), w') ∧ caches_ok w'.
Proof.
  intros Hrt Htot Hok. pose proof Hok as (Hw & Hc & Hu & Hi).
  destruct (makePosts_inv_getUsers w w uids Hrt Htot)
    as (users & w' & Hrun & Hinv & _).
  { by apply makePosts_inv_start. }
  exists users, w'. split; [done|]. by eapply makePosts_inv_caches_ok.
Qed.

Lemma getComments_keeps pid w :
  roundtrip (list Comment) → marshal_total (list Comment) →
  caches_ok w →
  ∃ w', getComments pid w = (Returns (Ok (comments_view w pid)), w')
        ∧ caches_ok w'.
Proof.
  intros Hrt Htot Hok. pose proof Hok as (Hw & Hc & Hu & Hi).
  destruct (makePosts_inv_getComments w w pid Hrt Htot)
    as (w' & Hrun & Hinv).
  { by apply makePosts_inv_start. }
  exists w'. split; [done|]. by eapply makePosts_inv_caches_ok.
Qed.

Lemma makePosts_keeps results CSRFToken allComments w :
  roundtrip User → marshal_total User →
  roundtrip (list Comment) → marshal_total (list Comment) →
  caches_ok w →
  ∃ posts w', makePosts results CSRFToken allComments w = (Returns (Ok posts), w')
              ∧ caches_ok w'.
Proof.
  intros HrtU HtotU HrtC HtotC Hok. pose proof Hok as (Hw & Hc & Hu & Hi).
  destruct (makePosts_runs results CSRFToken allComments w
              HrtU HtotU HrtC HtotC Hw Hc Hu) as (w' & Hrun & Hinv).
  eexists _, w'. split; [exact Hrun|]. by eapply makePosts_inv_caches_ok.
Qed.

Lemma appendComment_keeps postID user comment now dbnow w :
  roundtrip (list Comment) → marshal_total (list Comment) →
  caches_ok w →
  ∃ w', appendComment postID user comment now dbnow w = (Returns None, w')
        ∧ caches_ok w'.
Proof.
  intros Hrt Htot Hok. pose proof Hok as (Hw & Hc & Hu & Hi).
  destruct (mc w !! getCommentsCacheKey postID) as [v|] eqn:Hv.
  - destruct (Hc postID v Hv) as [cs Hcs].
    destruct (appendComment_cached postID user comment now dbnow w v cs
                Hw Hrt Htot Hv Hcs) as (w' & s & Hrun & Hw' & Hmc' & Hs & _).
    exists w'. split; [done|]. eapply caches_ok_update; [exact Hok|done|].
    rewrite Hmc'.
    intros k' v' [[<- <-]|[_ Hold]]%lookup_insert_Some; [right|by left].
    by eapply entry_ok_comments.
  - destruct (appendComment_uncached postID user comment now dbnow w Hw Hv)
      as (w' & Hrun & Hw' & Hmc' & _).
    exists w'. split; [done|]. eapply caches_ok_update; [exact Hok|done|].
    rewrite Hmc'. auto.
Qed.

Lemma banUserOnCache_keeps userID w :
  roundtrip User → marshal_total User →
  caches_ok w →
  ∃ w', banUserOnCache userID w = (Returns tt, w') ∧ caches_ok w'.
Proof.
  intros Hrt Htot Hok. pose proof Hok as (Hw & _ & Hu & _).
  unfold banUserOnCache. erewrite run_bind by (by apply mc_Get_healthy).
  destruct (mc w !! getUserCacheKey userID) as [v|] eqn:Hv; [|by exists w].
  destruct (Hu _ _ Hv) as [u Hdec]. rewrite Hdec.
  destruct (Htot (with_DelFlg 1 u)) as [s Hs]. rewrite Hs.
  erewrite run_bind by (by apply mc_Set_healthy).
  eexists. split; [reflexivity|].
  apply caches_ok_set; [done|]. eapply entry_ok_user. by apply Hrt.
Qed.

Lemma getIndexPosts_keeps w :
  roundtrip (list Post) → marshal_total (list Post) →
  caches_ok w →
  ∃ posts w', getIndexPosts w = (Returns (Ok posts), w') ∧ caches_ok w'.
Proof.
  intros Hrt Htot Hok. pose proof Hok as (Hw & _ & _ & Hi).
  pose proof Hw as (Hdb & Hmc & _).
  destruct (mc w !! getIndexPostsCacheKey) as [v|] eqn:Hv.
  - destruct (Hi v Hv) as [posts Hdec].
    rewrite (getIndexPosts_hit w v posts) by (by rewrite ?Hmc).
    rewrite set_mc_faults_healthy by done. by exists posts, w.
  - destruct (Htot (index_rows (users_tbl w) (posts_tbl w) postsPerPage))
      as [s Hs].
    rewrite (getIndexPosts_miss w s) by (by rewrite ?Hdb).
    eexists _, _. split; [reflexivity|].
    eapply caches_ok_update; [exact Hok| |].
    + destruct w. simpl in *. by subst.
    + destruct w. simpl.
      intros k' v' [[<- <-]|[_ Hold]]%lookup_insert_Some; [right|by left].
      eapply entry_ok_index. by apply Hrt.
Qed.

Lemma invalidateIndexPosts_keeps w :
  caches_ok w →
  ∃ e w', invalidateIndexPosts w = (Returns e, w') ∧ caches_ok w'.
Proof.
  intros Hok. pose proof Hok as ((_ & Hmc & _) & _).
  destruct (invalidateIndexPosts_healthy w Hmc) as [e ->].
  eexists _, _. split; [reflexivity|].
  eapply caches_ok_update; [exact Hok| |].
  - apply healthy_set_mc, Hok.
  - destruct w. simpl. intros k v [_ Hold]%lookup_delete_Some. by left.
Qed.

Lemma appendUser_keeps accountName passhash now dbnow w :
  roundtrip User → marshal_total User →
  caches_ok w →
  ∃ r w', appendUser accountName passhash now dbnow w = (Returns r, w')
          ∧ caches_ok w'.
Proof.
  intros Hrt Htot Hok. pose proof Hok as (Hw & _).
  destruct (Htot (mkUser (users_auto_inc w) accountName passhash 0 0 now))
    as [s Hs].
  unfold appendUser, db_Exec_insert_user, mc_Set. unfold_M.
  destruct w as [ut pt ct uai ai lg dbf lid m mcf].
  destruct Hw as (? & ? & ?). simpl in *. subst. simpl. rewrite Hs. simpl.
  eexists _, _. split; [reflexivity|].
  eapply caches_ok_update; [exact Hok|done|]. simpl.
  intros k' v' [[<- <-]|[_ Hold]]%lookup_insert_Some; [right|by left].
  eapply entry_ok_user. by apply Hrt.
Qed.

Lemma resetUserCache_loop_keeps users w :
  roundtrip User → marshal_total User →
  caches_ok w →
  ∃ w', resetUserCache_loop users w = (Returns tt, w') ∧ caches_ok w'.
Proof.
  intros Hrt Htot. revert w. induction users as [|u users IH]; intros w Hok.
  - by exists w.
  - simpl. destruct (Htot u) as [s Hs]. rewrite Hs.
    erewrite run_bind by (apply mc_Set_healthy, Hok).
    apply IH, caches_ok_set; [done|]. eapply entry_ok_user. by apply Hrt.
Qed.

Lemma resetCommentCache_loop_keeps postIDs w :
  roundtrip (list Comment) → marshal_total (list Comment) →
  caches_ok w →
  ∃ w', resetCommentCache_loop postIDs w = (Returns tt, w') ∧ caches_ok w'.
Proof.
  intros Hrt Htot. revert w. induction postIDs as [|pid pids IH]; intros w Hok.
  - by exists w.
  - simpl. destruct (getComments_keeps pid w Hrt Htot Hok)
      as (w1 & Hrun & Hok1).
    erewrite run_bind by exact Hrun. by apply IH.
Qed.

Lemma caches_ok_log q w :
  caches_ok w → caches_ok (set_db_faults [] (log_stmt q w)).
Proof.
  intros Hok. eapply caches_ok_update; [exact Hok| |].
  - destruct w. destruct Hok as ((? & ? & ?) & _). simpl in *. by subst.
  - destruct w. simpl. auto.
Qed.

Lemma caches_ok_set_tables us ps cs w :
  caches_ok w → caches_ok (set_tables us ps cs w).
Proof.
  intros Hok. eapply caches_ok_update; [exact Hok| |].
  - destruct w. apply Hok.
  - destruct w. simpl. auto.
Qed.

Lemma initialize_sqls_keep :
  Forall (λ qe : Stmt * (World → World),
            ∀ w, caches_ok w → caches_ok (qe.2 w))
         initialize_sqls.
Proof.
  unfold initialize_sqls. repeat (apply Forall_cons; split);
    [..|by apply Forall_nil]; simpl; intros w Hok;
    by apply caches_ok_set_tables.
Qed.

Lemma dbInitialize_loop_keeps sqls w :
  Forall (λ qe : Stmt * (World → World),
            ∀ w, caches_ok w → caches_ok (qe.2 w)) sqls →
  caches_ok w →
  ∃ w', dbInitialize_loop sqls w = (Returns tt, w') ∧ caches_ok w'.
Proof.
  intros Hsqls. revert w. induction Hsqls as [|[q effect] sqls Hq _ IH];
    intros w Hok.
  - by exists w.
  - simpl. unfold db_Exec_update at 1. unfold_M.
    pose proof Hok as ((Hdb & _) & _).
    destruct (next_fault (db_faults w)) as [b fs] eqn:Hnext.
    rewrite Hdb in Hnext. simpl in Hnext. simplify_eq. simpl.
    apply IH, Hq, caches_ok_log, Hok.
Qed.

Lemma dbInitialize_keeps w :
  roundtrip User → marshal_total User →
  roundtrip (list Comment) → marshal_total (list Comment) →
  caches_ok w →
  ∃ w', dbInitialize w = (Returns tt, w') ∧ caches_ok w'.
Proof.
  intros HrtU HtotU HrtC HtotC Hok. unfold dbInitialize.
  destruct (dbInitialize_loop_keeps initialize_sqls w
              initialize_sqls_keep Hok) as (w1 & Hrun1 & Hok1).
  erewrite run_bind by exact Hrun1.
  unfold resetCaches, resetUserCache, db_Select_all_users. unfold_M.
  pose proof Hok1 as ((Hdb1 & _) & _).
  destruct (next_fault (db_faults w1)) as [b fs] eqn:Hnext.
  rewrite Hdb1 in Hnext. simpl in Hnext. simplify_eq. simpl.
  destruct (resetUserCache_loop_keeps (users_tbl w1)
              (set_db_faults [] (log_stmt SelectAllUsers w1)) HrtU HtotU)
    as (w2 & Hrun2 & Hok2); [by apply caches_ok_log|].
  replace (users_tbl (log_stmt SelectAllUsers w1)) with (users_tbl w1)
    by (by destruct w1).
  rewrite Hrun2. unfold resetCommentCache, db_Select_post_ids. unfold_M.
  pose proof Hok2 as ((Hdb2 & _) & _).
  destruct (next_fault (db_faults w2)) as [b fs] eqn:Hnext.
  rewrite Hdb2 in Hnext. simpl in Hnext. simplify_eq. simpl.
  apply resetCommentCache_loop_keeps; [done|done|]. by apply caches_ok_log.
Qed.

(** Every call keeps the invariant, and none panics. *)
Lemma run_call_keeps c w :
  roundtrip User → marshal_total User →
  roundtrip (list Post) → marshal_total (list Post) →
  roundtrip (list Comment) → marshal_total (list Comment) →
  caches_ok w →
  ∃ w', run_call c w = (Returns tt, w') ∧ caches_ok w'.
Proof.
  intros HrtU HtotU HrtP HtotP HrtC HtotC Hok.
  destruct c; simpl in *.
  - destruct (getUsers_keeps uids w HrtU HtotU Hok) as (r & w' & Hrun & ?).
    exists w'. by erewrite run_bind by exact Hrun.
  - by apply banUserOnCache_keeps.
  - destruct (appendUser_keeps accountName passhash now dbnow w
                HrtU HtotU Hok) as (r & w' & Hrun & ?).
    exists w'. by erewrite run_bind by exact Hrun.
  - destruct (getIndexPosts_keeps w HrtP HtotP Hok) as (r & w' & Hrun & ?).
    exists w'. by erewrite run_bind by exact Hrun.
  - destruct (invalidateIndexPosts_keeps w Hok) as (r & w' & Hrun & ?).
    exists w'. by erewrite run_bind by exact Hrun.
  - destruct (getComments_keeps pid w HrtC HtotC Hok) as (w' & Hrun & ?).
    exists w'. by erewrite run_bind by exact Hrun.
  - destruct (appendComment_keeps postID user comment now dbnow w
                HrtC HtotC Hok) as (w' & Hrun & ?).
    exists w'. by erewrite run_bind by exact Hrun.
  - destruct (makePosts_keeps results CSRFToken allComments w
                HrtU HtotU HrtC HtotC Hok) as (r & w' & Hrun & ?).
    exists w'. by erewrite run_bind by exact Hrun.
  - by apply dbInitialize_keeps.
Qed.

(** The invariant holds in every reachable world. *)
Lemma reachable_caches_ok w :
  roundtrip User → marshal_total User →
  roundtrip (list Post) → marshal_total (list Post) →
  roundtrip (list Comment) → marshal_total (list Comment) →
  reachable w → caches_ok w.
Proof.
  intros HrtU HtotU HrtP HtotP HrtC HtotC.
  induction 1 as [w Hw Hmc|w c o w' _ IH Hrun].
  - by apply caches_ok_start.
  - destruct (run_call_keeps c w HrtU HtotU HrtP HtotP HrtC HtotC IH)
      as (w'' & Hrun' & Hok).
    rewrite Hrun in Hrun'. by simplify_eq.
Qed.




Lemma assemble_attached w CSRFToken allComments p :
  attached allComments (comments_view w (Post_ID p))
           (assemble w CSRFToken allComments p).
Proof. split; simpl; [done|]. by rewrite scanComment_attachViewed. Qed.

Lemma page_of_candidates w CSRFToken allComments results q :
  q ∈ page_of w CSRFToken allComments results →
  ∃ p, p ∈ results ∧ q = assemble w CSRFToken allComments p ∧ author_shown q.
Proof.
  unfold page_of. intros Hq%subseteq_take.
  apply list_elem_of_filter in Hq as [Hshown (p & -> & Hp)%list_elem_of_fmap].
  by exists p.
Qed.

Lemma page_of_short w CSRFToken allComments results p :
  (length results ≤ Z.to_nat postsPerPage)%nat →
  p ∈ results →
  author_shown (assemble w CSRFToken allComments p) →
  assemble w CSRFToken allComments p ∈ page_of w CSRFToken allComments results.
Proof.
  intros Hlen Hp Hshown. unfold page_of. rewrite take_ge.
  - apply list_elem_of_filter. split; [done|]. by apply list_elem_of_fmap_2.
  - etrans; [apply length_filter|]. by rewrite length_fmap.
Qed.

(** C3, as the code has it.  In every reachable world [makePosts]
    returns a nil error and the page of its candidates: each candidate is
    built with what readers see for it, those whose author is flagged as
    deleted are dropped, and the first [postsPerPage] of the others are
    returned, in candidate order.  The post built for a candidate carries
    the number of comments in the list readers see for it (the cached list
    when there is one, the rows of the store otherwise) and, the attached
    authors aside, all of these comments when [allComments] is set and the
    first three of the list otherwise.  When the list is in ascending
    order of creation time the first three are the three oldest: no
    comment left out was created before an attached one. *)
Theorem makePosts_attaches_first_three results CSRFToken allComments w :
  lawful_codec →
  reachable w →
  ∃ posts w',
    makePosts results CSRFToken allComments w = (Returns (Ok posts), w')
    ∧ posts = page_of w CSRFToken allComments results
    ∧ (∀ q, q ∈ posts →
         ∃ p, p ∈ results ∧ q = assemble w CSRFToken allComments p
              ∧ author_shown q)
    ∧ ∀ p, p ∈ results →
        let cs := comments_view w (Post_ID p) in
        let q := assemble w CSRFToken allComments p in
        Post_ID q = Post_ID p
        ∧ attached allComments cs q
        ∧ (∀ v, mc w !! getCommentsCacheKey (Post_ID p) = Some v →
             unmarshal v = Ok cs)
        ∧ (mc w !! getCommentsCacheKey (Post_ID p) = None →
             cs = comment_rows (comments_tbl w) (Post_ID p))
        ∧ (allComments = false → (3 < length cs)%nat →
             length (Post_Comments q) = 3%nat
             ∧ Comment_ID <$> Post_Comments q = Comment_ID <$> take 3 cs)
        ∧ (author_shown q → (length results ≤ Z.to_nat postsPerPage)%nat →
             q ∈ posts)
        ∧ (allComments = false → StronglySorted not_newer cs →
             ∀ c d, c ∈ Post_Comments q → d ∈ drop 3 cs →
                    Comment_CreatedAt c ≤ Comment_CreatedAt d).
Proof.
  intros ((HrtU & HtotU) & (HrtP & HtotP) & (HrtC & HtotC)) Hreach.
  destruct (reachable_caches_ok w HrtU HtotU HrtP HtotP HrtC HtotC Hreach)
    as (Hw & Hc & Hu & _).
  destruct (makePosts_runs results CSRFToken allComments w
              HrtU HtotU HrtC HtotC Hw Hc Hu) as (w' & Hrun & _).
  eexists _, w'. split; [exact Hrun|]. split; [done|].
  split; [intros q; apply page_of_candidates|].
  intros p Hp cs q. split; [done|].
  split; [apply assemble_attached|]. split; [|split; [|split; [|split]]].
  - intros v Hv. destruct (Hc _ _ Hv) as [cs' Hcs'].
    unfold cs, comments_view, cached_comments. by rewrite Hv, Hcs'.
  - intros Hv. unfold cs, comments_view, cached_comments. by rewrite Hv.
  - intros -> Hlen. simpl. fold cs.
    rewrite length_fmap, length_take. split; [lia|].
    rewrite <- list_fmap_compose. by apply list_fmap_ext.
  - intros Hshown Hlen. by apply page_of_short.
  - intros -> Hsorted c d Hcq Hd. simpl in Hcq. fold cs in Hcq.
    apply list_elem_of_fmap in Hcq as (c0 & -> & Hc0). simpl.
    rewrite <- (take_drop 3 cs) in Hsorted.
    by apply (StronglySorted_app_1_elem_of _ _ _ _ _ Hsorted Hc0 Hd).
Qed.

End properties.

(** * The properties on the example worlds *)

Section examples.
Import Example.
Local Existing Instances RefCodec.user RefCodec.posts RefCodec.comments.

Lemma rows_marshal (tbl : list User) u : u ∈ tbl → ∃ s, marshal u = Ok s.
Proof. intros _. by eexists. Qed.

Lemma RefCodec_lawful : lawful_codec.
Proof.
  repeat split;
    first [apply (RefCodec_roundtrip _) | apply (RefCodec_marshal_total _)].
Qed.

(** The warm world is what `/initialize` makes of the cold one, and the
    stale world is what a registration followed by a second `/initialize`
    makes of the warm one. *)
Lemma warm_after_initialize : dbInitialize cold = (Returns tt, warm).
Proof. by vm_compute. Qed.

Lemma stale_after_initialize :
  ∃ w, appendUser "dave" "e2fc714c" 500 500 warm = (Returns (1001, None), w)
       ∧ dbInitialize w = (Returns tt, stale).
Proof. eexists. split; [vm_compute; reflexivity|]. by vm_compute. Qed.

(** The paged world is what a visit of the index page makes of the warm
    one. *)
Lemma paged_after_index :
  getIndexPosts warm
  = (Returns (Ok [scanIndexPost post8; scanIndexPost post7]), paged).
Proof.
  assert (index_rows (users_tbl warm) (posts_tbl warm) postsPerPage
          = [scanIndexPost post8; scanIndexPost post7]) as Hrows
    by (vm_compute; reflexivity).
  rewrite (getIndexPosts_miss warm
             (encode_posts [scanIndexPost post8; scanIndexPost post7])).
  - rewrite Hrows. reflexivity.
  - reflexivity.
  - reflexivity.
  - vm_compute. reflexivity.
  - rewrite Hrows. reflexivity.
Qed.

Lemma reachable_cold : reachable cold.
Proof. apply reachable_start; [by repeat split|done]. Qed.

Lemma reachable_warm : reachable warm.
Proof.
  apply (reachable_call cold CallDbInitialize (Returns tt) warm).
  - apply reachable_cold.
  - apply warm_after_initialize.
Qed.

Lemma reachable_paged : reachable paged.
Proof.
  apply (reachable_call warm CallGetIndexPosts (Returns tt) paged);
    [apply reachable_warm|].
  simpl. by erewrite run_bind by exact paged_after_index.
Qed.

Lemma reachable_stale : reachable stale.
Proof.
  destruct stale_after_initialize as (w & Hregister & Hinit).
  apply (reachable_call w CallDbInitialize (Returns tt) stale);
    [|exact Hinit].
  apply (reachable_call warm (CallAppendUser "dave" "e2fc714c" 500 500)
           (Returns tt) w); [apply reachable_warm|].
  simpl. by erewrite run_bind by exact Hregister.
Qed.

Lemma decodable_stale : decodable (mc stale) [1; 2; 1001].
Proof.
  intros uid v Hin Hv. set_unfold in Hin.
  destruct Hin as [-> | [-> | [-> | []]]]; vm_compute in Hv; simplify_eq;
    eexists; by vm_compute.
Qed.

(** C1, counterexample.  The cache holds a snapshot for id 1001 and the
    store has no such row: [getUsers] returns an entry for 1001, so the
    key set is not the set of requested ids that exist in the store. *)
Lemma getUsers_returns_stale_snapshot :
  ∃ users w',
    getUsers [1; 2; 1001] stale = (Returns (Ok users), w')
    ∧ 1001 ∈ dom users
    ∧ (1001 ∉ (User_ID <$> users_tbl stale))
    ∧ ¬ (∀ id, id ∈ dom users
               ↔ id ∈ [1; 2; 1001] ∧ id ∈ User_ID <$> users_tbl stale).
Proof.
  eexists _, _. split; [vm_compute; reflexivity|].
  assert (1001 ∉ (User_ID <$> users_tbl stale)) as Hstore
    by (simpl; rewrite !not_elem_of_cons; repeat split; try discriminate;
        apply not_elem_of_nil).
  split; [by vm_compute|]. split; [done|].
  intros Hclaim. apply Hstore. apply Hclaim. by vm_compute.
Qed.

(** C1 on the stale world. *)
Lemma getUsers_key_set_witness :
  ∃ users w',
    getUsers [1; 2; 1001] stale = (Returns (Ok users), w')
    ∧ ∀ id, id ∈ dom users
            ↔ id ∈ [1; 2; 1001]
              ∧ (is_Some (mc stale !! getUserCacheKey id)
                 ∨ id ∈ User_ID <$> users_tbl stale).
Proof.
  apply (getUsers_key_set [1; 2; 1001] stale).
  - reflexivity.
  - reflexivity.
  - apply decodable_stale.
  - apply rows_marshal.
Defined.

(** C2, counterexample.  Users 1, 2 and 3 are in the store and nothing
    is cached.  The second of two calls for ids 1, 2 and 4 sends a
    statement to the store again, for id 4. *)
Lemma getUsers_second_call_requeries :
  ∃ users w1 w2,
    getUsers [1; 2; 4] cold = (Returns (Ok users), w1)
    ∧ getUsers [1; 2; 4] w1 = (Returns (Ok users), w2)
    ∧ db_log w1 = [SelectUsersIn [1; 2; 4]]
    ∧ db_log w2 = [SelectUsersIn [1; 2; 4]; SelectUsersIn [4]]
    ∧ db_log w2 ≠ db_log w1.
Proof.
  eexists _, _, _. split; [vm_compute; reflexivity|].
  split; [vm_compute; reflexivity|]. by vm_compute.
Qed.

(** C2 on the stale world: every id is found, the second call sends
    nothing to the store. *)
Lemma getUsers_twice_witness :
  ∃ users w1 w2,
    getUsers [1; 2; 1001] stale = (Returns (Ok users), w1)
    ∧ getUsers [1; 2; 1001] w1 = (Returns (Ok users), w2)
    ∧ db_log w2
      = log_miss_query (db_log w1)
          (filter (λ id, users !! id = None) [1; 2; 1001])
    ∧ ((∀ id, id ∈ [1; 2; 1001] → id ∈ dom users) → db_log w2 = db_log w1).
Proof.
  apply (getUsers_twice [1; 2; 1001] stale).
  - by repeat split.
  - apply (RefCodec_roundtrip User).
  - apply (RefCodec_marshal_total User).
  - apply decodable_stale.
Defined.

(** C3, counterexample.  Post 7 has four cached comments, oldest first.
    With [allComments] unset [makePosts] attaches the comments 1, 2 and
    3; comment 4, the most recent one, is left out. *)
Lemma makePosts_drops_newest_comment :
  ∃ q w',
    makePosts [post7] "token" false warm = (Returns (Ok [q]), w')
    ∧ comments_view warm 7 = [c1; c2; c3; c4]
    ∧ Post_CommentCount q = 4
    ∧ Comment_ID <$> Post_Comments q = [1; 2; 3]
    ∧ Comment_CreatedAt <$> Post_Comments q = [301; 302; 303]
    ∧ Comment_ID c4 ∉ (Comment_ID <$> Post_Comments q).
Proof.
  eexists _, _. split; [vm_compute; reflexivity|].
  split; [by vm_compute|]. split; [done|]. split; [done|]. split; [done|].
  simpl. rewrite !not_elem_of_cons. repeat split; try discriminate.
  apply not_elem_of_nil.
Qed.

(** C3 on the warm world: post 7 has four cached comments, post 8 none. *)
Lemma makePosts_attaches_first_three_witness :
  ∃ posts w',
    makePosts [post7; post8] "token" false warm = (Returns (Ok posts), w')
    ∧ posts = page_of warm "token" false [post7; post8]
    ∧ (∀ q, q ∈ posts →
         ∃ p, p ∈ [post7; post8] ∧ q = assemble warm "token" false p
              ∧ author_shown q)
    ∧ ∀ p, p ∈ [post7; post8] →
        let cs := comments_view warm (Post_ID p) in
        let q := assemble warm "token" false p in
        Post_ID q = Post_ID p
        ∧ attached false cs q
        ∧ (∀ v, mc warm !! getCommentsCacheKey (Post_ID p) = Some v →
             unmarshal v = Ok cs)
        ∧ (mc warm !! getCommentsCacheKey (Post_ID p) = None →
             cs = comment_rows (comments_tbl warm) (Post_ID p))
        ∧ (false = false → (3 < length cs)%nat →
             length (Post_Comments q) = 3%nat
             ∧ Comment_ID <$> Post_Comments q = Comment_ID <$> take 3 cs)
        ∧ (author_shown q → (length [post7; post8] ≤ Z.to_nat postsPerPage)%nat →
             q ∈ posts)
        ∧ (false = false → StronglySorted not_newer cs →
             ∀ c d, c ∈ Post_Comments q → d ∈ drop 3 cs →
                    Comment_CreatedAt c ≤ Comment_CreatedAt d).
Proof.
  apply (makePosts_attaches_first_three [post7; post8] "token" false warm).
  - apply RefCodec_lawful.
  - apply reachable_warm.
Defined.

(** C4 on the cold world: a comment on post 7, whose list is not cached. *)
Lemma appendComment_cache_absent_witness :
  ∃ w',
    appendComment 7 bob "fifth" 400 400 cold = (Returns None, w')
    ∧ comments_tbl w' = comments_tbl cold ++ [inserted_row cold 7 bob "fifth" 400]
    ∧ db_log w' = db_log cold ++ [InsertComment 7 (User_ID bob) "fifth"]
    ∧ mc w' = mc cold
    ∧ mc w' !! getCommentsCacheKey 7 = None.
Proof.
  apply (appendComment_cache_absent 7 bob "fifth" 400 400 cold).
  - reflexivity.
  - reflexivity.
Defined.

(** C5 at its failing input: the store fails the miss query and the
    caller gets a nil error with an empty mapping. *)
Lemma getUsers_store_error_swallowed_witness :
  ∃ w', getUsers [1; 2; 4] store_down = (Returns (Ok ∅), w')
        ∧ db_log w' = db_log store_down ++ [SelectUsersIn [1; 2; 4]].
Proof.
  apply (getUsers_store_error_swallowed [1; 2; 4] store_down).
  - discriminate.
  - reflexivity.
  - intros uid _. reflexivity.
  - reflexivity.
Defined.

(** C6 on a world whose cache backend is down. *)
Lemma getUsers_cache_down_witness :
  ∃ users w',
    getUsers [1; 2; 4] cache_down = (Returns (Ok users), w')
    ∧ db_log w' = log_miss_query (db_log cache_down) [1; 2; 4]
    ∧ users = merge_rows (user_rows (users_tbl cache_down) [1; 2; 4]) ∅
    ∧ (∀ id, id ∈ dom users
             ↔ id ∈ [1; 2; 4] ∧ id ∈ User_ID <$> users_tbl cache_down)
    ∧ (∀ id u, users !! id = Some u →
               u ∈ users_tbl cache_down ∧ User_ID u = id).
Proof.
  apply (getUsers_cache_down [1; 2; 4] cache_down).
  - reflexivity.
  - reflexivity.
  - apply rows_marshal.
Defined.



(** C8 on the stale world: the cached snapshot of user 1001 is banned. *)
Lemma banUserOnCache_spec_witness :
  ∃ r w' s,
    banUserOnCache 1001 stale = (r, w')
    ∧ same_store stale w'
    ∧ r = Returns tt
    ∧ marshal (banned dave) = Ok s
    ∧ mc w' = <[getUserCacheKey 1001 := s]> (mc stale)
    ∧ ∃ u', unmarshal s = Ok u'
        ∧ User_DelFlg u' = 1
        ∧ User_ID u' = User_ID dave
        ∧ User_AccountName u' = User_AccountName dave
        ∧ User_Passhash u' = User_Passhash dave
        ∧ User_Authority u' = User_Authority dave
        ∧ User_CreatedAt u' = User_CreatedAt dave.
Proof.
  destruct (banUserOnCache 1001 stale) as [r w'] eqn:Hrun.
  destruct (banUserOnCache_spec 1001 stale r w' Hrun) as (Hstore & _ & Hhit).
  destruct (Hhit (encode_user dave) dave (encode_user (banned dave)))
    as (Hr & Hmc & Hfields).
  - reflexivity.
  - reflexivity.
  - by apply (RefCodec_roundtrip User).
  - reflexivity.
  - exists r, w', (encode_user (banned dave)).
    repeat (split; [done|]). apply Hfields, (RefCodec_roundtrip User).
Defined.


(** C10 on a world whose cached comment list of post 7 does not decode. *)
Lemma appendComment_error_keeps_row_witness :
  ∃ w',
    appendComment 7 bob "fifth" 400 400 corrupt = (Returns (Some ErrJSON), w')
    ∧ comments_tbl w'
      = comments_tbl corrupt ++ [inserted_row corrupt 7 bob "fifth" 400]
    ∧ db_log w'
      = db_log corrupt ++ [InsertComment 7 (User_ID bob) "fifth"]
    ∧ mc w' = mc corrupt.
Proof.
  eexists. split; [vm_compute; reflexivity|].
  apply (appendComment_error_keeps_row 7 bob "fifth" 400 400 corrupt ErrJSON).
  - reflexivity.
  - vm_compute. reflexivity.
Defined.

End examples.
